(** * Load_Balancer.cpp: destinations, services and the three balancers

    A shallow embedding of [src/Load_Balancer.cpp].  Objects that the C++
    code shares through raw pointers ([Destination*], [Service*]) live in a
    store indexed by address; methods are computations in a small monad that
    threads the state they can reach and distinguishes a normal return, a
    thrown [runtime_error] (which keeps the state reached at the throw) and
    undefined behaviour (dereferencing a dangling pointer, [front()] of an
    empty queue).  The body of the console loop of [main] is embedded in
    [main.iteration], over the values its extractions store. *)

From Stdlib Require Import ZArith NArith Lia Sorted.
From stdpp Require Import base option list gmap strings pretty.

(** ** Machine integers *)

(** [int] is a 32-bit two's complement integer, carried by [Z]. *)
Definition int : Type := Z.
Bind Scope Z_scope with int.
Definition INT_MIN : Z := (- 2 ^ 31)%Z.
Definition INT_MAX : Z := (2 ^ 31 - 1)%Z.
Definition int_range (z : Z) : Prop := (INT_MIN <= z <= INT_MAX)%Z.

(** The value an [int] holds after an arithmetic result [z] is stored. *)
Definition int_wrap (z : Z) : int := ((z + 2 ^ 31) `mod` 2 ^ 32 - 2 ^ 31)%Z.

(** [size_t] is an unsigned 64-bit integer, carried by [N]. *)
Definition size_t : Type := N.
Bind Scope N_scope with size_t.

(** Addresses of heap or stack objects; [nullptr] is address 0. *)
Definition ptr : Type := N.
Bind Scope N_scope with ptr.
Definition nullptr : ptr := 0%N.

(** [std::hash<T>]: unspecified by the standard beyond being a function. *)
Class Hash (A : Type) := hash : A → size_t.

(** ** Streams and exceptions *)

Definition ostream : Type := string.
Definition newline : string := String (Ascii.ascii_of_nat 10) EmptyString.

Inductive exception : Type :=
| runtime_error (what : string).

(** ** Outcomes and the method monad *)

Inductive result (S A : Type) : Type :=
| Ok (a : A) (s : S)
| Throw (e : exception) (s : S)
| Undefined.
Arguments Ok {S A} a s.
Arguments Throw {S A} e s.
Arguments Undefined {S A}.

Definition M (S A : Type) : Type := S → result S A.

Definition ret {S A} (a : A) : M S A := λ s, Ok a s.

Definition bind {S A B} (m : M S A) (f : A → M S B) : M S B :=
  λ s, match m s with
       | Ok a s' => f a s'
       | Throw e s' => Throw e s'
       | Undefined => Undefined
       end.

Declare Scope method_scope.
Delimit Scope method_scope with method.
Bind Scope method_scope with M.
Notation "x ← y ; z" := (bind y (λ x, z))
  (at level 20, y at level 100, z at level 200, only parsing) : method_scope.
Notation "' x ← y ; z" := (bind y (λ x, z))
  (at level 20, x pattern, y at level 100, z at level 200, only parsing) : method_scope.
Notation "x ;; z" := (bind x (λ _, z))
  (at level 100, z at level 200, only parsing, right associativity) : method_scope.
#[local] Open Scope method_scope.

Definition throw {S A} (e : exception) : M S A := λ s, Throw e s.
Definition undefined {S A} : M S A := λ _, Undefined.
Definition get {S} : M S S := λ s, Ok s s.
Definition put {S} (s : S) : M S unit := λ _, Ok tt s.

(** Run a computation on a component of the state, selected by a getter
    and a setter (a base-class sub-object, or the object behind a pointer). *)
Definition zoom {S T A} (proj : S → T) (upd : T → S → S) (m : M T A) : M S A :=
  λ s, match m (proj s) with
       | Ok a t => Ok a (upd t s)
       | Throw e t => Throw e (upd t s)
       | Undefined => Undefined
       end.

(** ** Standard containers *)

(** [std::set<Destination*>]: ordered by address, without duplicates.  It
    is carried by the strictly ascending list of its elements, which is
    also the order in which [begin()..end()] enumerates it. *)
Module set.
Abbreviation t := (list ptr) (only parsing).

Fixpoint insert (x : ptr) (s : t) : t :=
  match s with
  | [] => [x]
  | y :: s' =>
      if (x <? y)%N then x :: s
      else if (x =? y)%N then s
      else y :: insert x s'
  end.

Fixpoint erase (x : ptr) (s : t) : t :=
  match s with
  | [] => []
  | y :: s' => if (x =? y)%N then s' else y :: erase x s'
  end.

Definition empty (s : t) : bool :=
  match s with [] => true | _ :: _ => false end.
End set.

(** [std::queue<Destination*>]: front at the head, [push] at the back. *)
Module queue.
Abbreviation t := (list ptr) (only parsing).

Definition push (q : t) (x : ptr) : t := q ++ [x].

Definition front {S} (q : t) : M S ptr :=
  match q with
  | [] => undefined
  | x :: _ => ret x
  end.

Definition pop {S} (q : t) : M S t :=
  match q with
  | [] => undefined
  | _ :: q' => ret q'
  end.
End queue.

(** [std::unordered_map<string, V>]. *)
Module unordered_map.
(** [m.find(k)]; [None] stands for [m.end()]. *)
Definition find {V} (m : gmap string V) (k : string) : option V := m !! k.

(** [m[k]]: the mapped value, value-initialised and inserted when [k]
    is absent.  Returns the value and the map after the access. *)
Definition subscript {V} (dflt : V) (m : gmap string V) (k : string)
  : V * gmap string V :=
  match m !! k with
  | Some v => (v, m)
  | None => (dflt, <[k := dflt]> m)
  end.
End unordered_map.

(** [std::min_element(first, last, comp)]: the first smallest element;
    [None] stands for [last] (empty range). *)
Fixpoint min_element_loop {S A} (comp : A → A → M S bool)
    (smallest : A) (rest : list A) : M S A :=
  match rest with
  | [] => ret smallest
  | x :: rest' =>
      b ← comp x smallest;
      min_element_loop comp (if b then x else smallest) rest'
  end.

Definition min_element {S A} (comp : A → A → M S bool) (l : list A)
  : M S (option A) :=
  match l with
  | [] => ret None
  | x :: rest => smallest ← min_element_loop comp x rest; ret (Some smallest)
  end.

(** ** class Request *)
Module Request.
Record t : Type := mk {
  id : string;
  requestType : string;
  parameters : gmap string string
}.
End Request.

(** ** class Destination *)
Module Destination.
Record t : Type := mk {
  ipAddress : string;
  requestsBeingServed : int;
  threshold : int
}.

Definition set_requestsBeingServed (n : int) (this : t) : t :=
  mk (ipAddress this) n (threshold this).

(** [Destination(string ip, int thresh)]; [requestsBeingServed] has the
    default member initialiser [0]. *)
Definition Destination (ip : string) (thresh : int) : t := mk ip 0%Z thresh.

(** Methods run on the object and on [cout]. *)
Definition acceptRequest (request : Request.t) : M (t * ostream) bool :=
  λ '(this, cout),
    if (requestsBeingServed this <? threshold this)%Z then
      let this :=
        set_requestsBeingServed (int_wrap (requestsBeingServed this + 1)) this in
      Ok true
         (this,
          cout +:+ "Request accepted by " +:+ ipAddress this
               +:+ ". Currently serving: " +:+ pretty (requestsBeingServed this)
               +:+ " requests." +:+ newline)
    else
      Ok false
         (this,
          cout +:+ "Request rejected by " +:+ ipAddress this
               +:+ " (overloaded)." +:+ newline).

Definition completeRequest : M (t * ostream) unit :=
  λ '(this, cout),
    if (0 <? requestsBeingServed this)%Z then
      let this :=
        set_requestsBeingServed (int_wrap (requestsBeingServed this - 1)) this in
      Ok tt
         (this,
          cout +:+ "Request completed by " +:+ ipAddress this
               +:+ ". Currently serving: " +:+ pretty (requestsBeingServed this)
               +:+ " requests." +:+ newline)
    else Ok tt (this, cout).

(** The load counter lies between 0 and the threshold. *)
Definition load_ok (this : t) : Prop :=
  (0 ≤ requestsBeingServed this ≤ threshold this)%Z ∧ int_range (threshold this).

(** A call made on a destination by its user. *)
Inductive call : Type :=
| AcceptRequest (request : Request.t)
| CompleteRequest.

(** Perform the calls in order; the answers of the [acceptRequest]
    calls are collected in call order. *)
Fixpoint calls (cs : list call) : M (t * ostream) (list bool) :=
  match cs with
  | [] => ret []
  | AcceptRequest request :: cs' =>
      b ← acceptRequest request; bs ← calls cs'; ret (b :: bs)
  | CompleteRequest :: cs' =>
      completeRequest;; calls cs'
  end.
End Destination.

(** ** class Service *)
Module Service.
Record t : Type := mk {
  name : string;
  destinations : set.t
}.

Definition addDestination (destination : ptr) (this : t) : t :=
  mk (name this) (set.insert destination (destinations this)).

Definition removeDestination (destination : ptr) (this : t) : t :=
  mk (name this) (set.erase destination (destinations this)).
End Service.

(** ** The store of shared objects *)

Record World : Type := mkWorld {
  destination_at : gmap ptr Destination.t;
  service_at : gmap ptr Service.t;
  cout : ostream
}.

(** [p->requestsBeingServed] *)
Definition load_of {T} (p : ptr) : M (T * World) int :=
  λ '(this, w),
    match destination_at w !! p with
    | Some d => Ok (Destination.requestsBeingServed d) (this, w)
    | None => Undefined
    end.

(** A method call [p->m(...)] on the destination stored at [p]. *)
Definition on_destination {A} (p : ptr) (m : M (Destination.t * ostream) A)
  : M World A :=
  λ w,
    match destination_at w !! p with
    | Some d =>
        zoom (λ _, (d, cout w))
             (λ '(d', cout') w,
                mkWorld (<[p := d']> (destination_at w)) (service_at w) cout')
             m w
    | None => Undefined
    end.

(** A method call [p->m(...)] on the service stored at [p]. *)
Definition on_service (p : ptr) (m : Service.t → Service.t) : M World unit :=
  λ w,
    match service_at w !! p with
    | Some svc =>
        Ok tt (mkWorld (destination_at w) (<[p := m svc]> (service_at w)) (cout w))
    | None => Undefined
    end.

(** ** class LoadBalancer *)
Module LoadBalancer.
Record t : Type := mk {
  serviceMap : gmap string ptr
}.

(** [serviceMap[requestType] = service;] *)
Definition registerService (requestType : string) (service : ptr) (this : t) : t :=
  let '(_, m) := unordered_map.subscript nullptr (serviceMap this) requestType in
  mk (<[requestType := service]> m).

(** Returns the set behind [serviceMap[request.requestType]->destinations];
    every caller reads it before anything else runs, so the reference is
    carried by the value it denotes at that point. *)
Definition getDestinations (request : Request.t) : M (t * World) set.t :=
  λ '(this, w),
    match unordered_map.find (serviceMap this) (Request.requestType request) with
    | None =>
        Throw (runtime_error "No service found for the request type.") (this, w)
    | Some _ =>
        let '(service, m) :=
          unordered_map.subscript nullptr (serviceMap this)
                                  (Request.requestType request) in
        match service_at w !! service with
        | Some svc => Ok (Service.destinations svc) (mk m, w)
        | None => Undefined
        end
    end.
End LoadBalancer.

(** ** class LeastConnectionLoadBalancer : public LoadBalancer *)
Module LeastConnectionLoadBalancer.
Abbreviation t := LoadBalancer.t (only parsing).

(** The comparison lambda handed to [min_element]. *)
Definition less_loaded (a b : ptr) : M (t * World) bool :=
  la ← load_of a;
  lb ← load_of b;
  ret (la <? lb)%Z.

Definition balanceLoad (request : Request.t) : M (t * World) ptr :=
  destinations ← LoadBalancer.getDestinations request;
  if set.empty destinations then
    throw (runtime_error "No destinations available.")
  else
    it ← min_element less_loaded destinations;
    match it with
    | Some destination => ret destination
    | None => undefined
    end.
End LeastConnectionLoadBalancer.

(** ** class RoutedLoadBalancer : public LoadBalancer *)
Module RoutedLoadBalancer.
Abbreviation t := LoadBalancer.t (only parsing).

Definition balanceLoad `{Hash string} (request : Request.t) : M (t * World) ptr :=
  destinations ← LoadBalancer.getDestinations request;
  if set.empty destinations then
    throw (runtime_error "No destinations available.")
  else
    let list : list ptr := destinations in
    let size : size_t := N.of_nat (length list) in
    if (size =? 0)%N then undefined
    else
      let index : size_t := (hash (Request.id request) `mod` size)%N in
      match list !! N.to_nat index with
      | Some destination => ret destination
      | None => undefined
      end.
End RoutedLoadBalancer.

(** ** class RoundRobinLoadBalancer : public LoadBalancer *)
Module RoundRobinLoadBalancer.
Record t : Type := mk {
  base : LoadBalancer.t;
  destinationQueues : gmap string queue.t
}.

(** A call of a base-class method on the [LoadBalancer] sub-object. *)
Definition as_base {A} (m : M (LoadBalancer.t * World) A) : M (t * World) A :=
  zoom (λ '(this, w), (base this, w))
       (λ '(b, w) '(this, _), (mk b (destinationQueues this), w))
       m.

(** [destinationQueues[k]]: the queue there, created empty when absent. *)
Definition queue_at (k : string) : M (t * World) queue.t :=
  λ '(this, w),
    let '(q, m) := unordered_map.subscript [] (destinationQueues this) k in
    Ok q (mk (base this) m, w).

(** Assignment through the reference [destinationQueues[k]]. *)
Definition set_queue_at (k : string) (q : queue.t) : M (t * World) unit :=
  λ '(this, w),
    let '(_, m) := unordered_map.subscript [] (destinationQueues this) k in
    Ok tt (mk (base this) (<[k := q]> m), w).

Definition balanceLoad (request : Request.t) : M (t * World) ptr :=
  destinations ← as_base (LoadBalancer.getDestinations request);
  if set.empty destinations then
    throw (runtime_error "No destinations available.")
  else
    '(this, _) ← get;
    (if unordered_map.find (destinationQueues this) (Request.requestType request)
     is None then
       let q := foldl queue.push [] destinations in
       set_queue_at (Request.requestType request) q
     else ret tt);;
    destination ← (q ← queue_at (Request.requestType request); queue.front q);
    (q ← queue_at (Request.requestType request);
     q' ← queue.pop q;
     set_queue_at (Request.requestType request) q');;
    (q ← queue_at (Request.requestType request);
     set_queue_at (Request.requestType request) (queue.push q destination));;
    ret destination.
End RoundRobinLoadBalancer.

(** ** Virtual dispatch through [LoadBalancer*] *)

Inductive Balancer : Type :=
| LeastConnection (lb : LeastConnectionLoadBalancer.t)
| Routed (lb : RoutedLoadBalancer.t)
| RoundRobin (lb : RoundRobinLoadBalancer.t).

Definition serviceMap_of (lb : Balancer) : gmap string ptr :=
  match lb with
  | LeastConnection this | Routed this => LoadBalancer.serviceMap this
  | RoundRobin this => LoadBalancer.serviceMap (RoundRobinLoadBalancer.base this)
  end.

Definition registerService (requestType : string) (service : ptr) (lb : Balancer)
  : Balancer :=
  match lb with
  | LeastConnection this =>
      LeastConnection (LoadBalancer.registerService requestType service this)
  | Routed this =>
      Routed (LoadBalancer.registerService requestType service this)
  | RoundRobin this =>
      RoundRobin
        (RoundRobinLoadBalancer.mk
           (LoadBalancer.registerService requestType service
              (RoundRobinLoadBalancer.base this))
           (RoundRobinLoadBalancer.destinationQueues this))
  end.

Definition balanceLoad `{Hash string} (request : Request.t)
  : M (Balancer * World) ptr :=
  λ '(lb, w),
    match lb with
    | LeastConnection this =>
        zoom (λ _, (this, w)) (λ '(this', w') _, (LeastConnection this', w'))
             (LeastConnectionLoadBalancer.balanceLoad request) (lb, w)
    | Routed this =>
        zoom (λ _, (this, w)) (λ '(this', w') _, (Routed this', w'))
             (RoutedLoadBalancer.balanceLoad request) (lb, w)
    | RoundRobin this =>
        zoom (λ _, (this, w)) (λ '(this', w') _, (RoundRobin this', w'))
             (RoundRobinLoadBalancer.balanceLoad request) (lb, w)
    end.

(** Successive [balanceLoad] calls, one per request, collecting the
    destinations returned. *)
Fixpoint balanceLoads `{Hash string} (requests : list Request.t)
  : M (Balancer * World) (list ptr) :=
  match requests with
  | [] => ret []
  | request :: requests' =>
      d ← balanceLoad request;
      ds ← balanceLoads requests';
      ret (d :: ds)
  end.

(** A caller that, like the loop of [main], first asks the balancer for
    a destination and then calls a method of the destination it got:
    here [acceptRequest], the admission step. *)
Definition route_and_accept `{Hash string} (request : Request.t)
  : M (Balancer * World) (ptr * bool) :=
  destination ← balanceLoad request;
  accepted ← zoom snd (λ w '(lb, _), (lb, w))
                  (on_destination destination (Destination.acceptRequest request));
  ret (destination, accepted).

(** ** Vocabulary for the statements *)

(** The two failures of [balanceLoad], named as the design document
    names them. *)
Definition UnknownRequestTypeError : exception :=
  runtime_error "No service found for the request type.".
Definition NoCandidatesError : exception :=
  runtime_error "No destinations available.".

(** The candidate set a request type resolves to: the destinations of the
    service registered for it, when there is one and it is a live object. *)
Definition candidates (serviceMap : gmap string ptr) (w : World)
    (requestType : string) : option set.t :=
  match serviceMap !! requestType with
  | Some service =>
      match service_at w !! service with
      | Some svc => Some (Service.destinations svc)
      | None => None
      end
  | None => None
  end.

(** The load of the destination stored at [p]. *)
Definition load_at (w : World) (p : ptr) : option int :=
  match destination_at w !! p with
  | Some d => Some (Destination.requestsBeingServed d)
  | None => None
  end.

(** Every candidate is a live destination. *)
Definition live (w : World) (l : list ptr) : Prop :=
  ∀ p, p ∈ l → is_Some (destination_at w !! p).

(** The world with the service at [service] replaced. *)
Definition with_service (service : ptr) (svc : Service.t) (w : World) : World :=
  mkWorld (destination_at w) (<[service := svc]> (service_at w)) (cout w).

(** The round-robin balancer with the queue of [requestType] replaced. *)
Definition with_queue (requestType : string) (q : queue.t)
    (this : RoundRobinLoadBalancer.t) : RoundRobinLoadBalancer.t :=
  RoundRobinLoadBalancer.mk
    (RoundRobinLoadBalancer.base this)
    (<[requestType := q]> (RoundRobinLoadBalancer.destinationQueues this)).

(** [d], at position [i] of the enumeration [l], carries the least load of
    [l], and every element enumerated before it carries strictly more. *)
Definition first_least_loaded (w : World) (l : list ptr) (i : nat) (d : ptr) : Prop :=
  l !! i = Some d
  ∧ ∃ n, load_at w d = Some n
         ∧ ∀ j d', l !! j = Some d' →
                   ∃ n', load_at w d' = Some n' ∧ (n ≤ n')%Z ∧ (j < i → (n < n')%Z).

(** A change of membership made by the owner of a service. *)
Inductive membership_change : Type :=
| AddDestination (destination : ptr)
| RemoveDestination (destination : ptr).

Definition change_membership (svc : Service.t) (c : membership_change) : Service.t :=
  match c with
  | AddDestination d => Service.addDestination d svc
  | RemoveDestination d => Service.removeDestination d svc
  end.

(** The exception [e] is one of the two errors of [balanceLoad], with its
    cause in the state: no service registered, or a service without
    destinations. *)
Definition thrown_for (m : gmap string ptr) (w : World) (request : Request.t)
    (e : exception) : Prop :=
  (e = UnknownRequestTypeError ∧ m !! Request.requestType request = None)
  ∨ (e = NoCandidatesError ∧ candidates m w (Request.requestType request) = Some []).

(** What a balancer needs, beyond a non-empty candidate set [l], for its
    call to be defined: the least-connection scan reads the load of every
    candidate; the round-robin queue of the request type, once created, is
    never empty (it is created non-empty and only rotated). *)
Definition ready (lb : Balancer) (w : World) (requestType : string) (l : list ptr)
  : Prop :=
  match lb with
  | LeastConnection _ => live w l
  | Routed _ => True
  | RoundRobin this =>
      RoundRobinLoadBalancer.destinationQueues this !! requestType ≠ Some []
  end.

(** What a returning [balanceLoad] has selected from the non-empty
    candidate set [l], and the balancer it leaves.  Least connection and
    routed pick a member of [l] and keep no state.  Round robin serves
    the front [d] of the queue in force (the queue stored for the request
    type or, when there is none yet, the enumeration [l]) and stores that
    queue rotated by one. *)
Definition selected (lb : Balancer) (requestType : string) (l : list ptr)
    (d : ptr) (lb' : Balancer) : Prop :=
  match lb with
  | LeastConnection _ | Routed _ => d ∈ l ∧ lb' = lb
  | RoundRobin this =>
      ∃ q',
        match RoundRobinLoadBalancer.destinationQueues this !! requestType with
        | Some q => q
        | None => l
        end = d :: q'
        ∧ lb' = RoundRobin (with_queue requestType (q' ++ [d]) this)
  end.

(** The reading of the round-robin rule that ignores every later change of
    membership: once the queue of a request type exists with front [x],
    the next call returns [x] and rotates the queue, whatever additions
    and removals the service has seen in between. *)
Definition rotation_ignores_membership : Prop :=
  ∀ (request : Request.t) (this : RoundRobinLoadBalancer.t) (w : World)
    (service : ptr) (svc : Service.t) (changes : list membership_change)
    (x : ptr) (q' : list ptr),
    LoadBalancer.serviceMap (RoundRobinLoadBalancer.base this)
      !! Request.requestType request = Some service →
    service_at w !! service = Some svc →
    RoundRobinLoadBalancer.destinationQueues this !! Request.requestType request
      = Some (x :: q') →
    let w' := with_service service (foldl change_membership svc changes) w in
    RoundRobinLoadBalancer.balanceLoad request (this, w')
    = Ok x (with_queue (Request.requestType request) (q' ++ [x]) this, w').

(** ** Configurations used as concrete instances *)
Module scenario.
(** Addresses of the objects. *)
Definition service : ptr := 4096.
Definition dest1 : ptr := 8192.
Definition dest2 : ptr := 8224.
Definition dest3 : ptr := 8256.

Definition request (n : string) : Request.t := Request.mk ("REQ" +:+ n) "http" ∅.

(** A hash function to run the routed balancer with. *)
Definition length_hash : Hash string := λ s, N.of_nat (String.length s).

(** A configuration of the shape [main] builds, three destinations in one
    service registered under "http", with the destinations at ascending
    addresses (one possible placement). *)
Definition main_service : Service.t :=
  Service.addDestination dest3
    (Service.addDestination dest2
       (Service.addDestination dest1 (Service.mk EmptyString []))).

Definition main_world : World :=
  mkWorld
    (<[dest1 := Destination.Destination "192.168.0.1" 12]>
       (<[dest2 := Destination.Destination "192.168.0.2" 20]>
          (<[dest3 := Destination.Destination "192.168.0.3" 15]> ∅)))
    (<[service := main_service]> ∅)
    EmptyString.

Definition leastConnectionLB : Balancer :=
  registerService "http" service (LeastConnection (LoadBalancer.mk ∅)).
Definition routedLB : Balancer :=
  registerService "http" service (Routed (LoadBalancer.mk ∅)).
Definition roundRobin : RoundRobinLoadBalancer.t :=
  RoundRobinLoadBalancer.mk
    (LoadBalancer.registerService "http" service (LoadBalancer.mk ∅)) ∅.
Definition roundRobinLB : Balancer := RoundRobin roundRobin.

(** Two destinations of capacity 1 in one service, idle. *)
Definition idle_world : World :=
  mkWorld
    (<[dest1 := Destination.Destination "D1" 1]>
       (<[dest2 := Destination.Destination "D2" 1]> ∅))
    (<[service :=
         Service.addDestination dest2
           (Service.addDestination dest1 (Service.mk EmptyString []))]> ∅)
    EmptyString.

(** Two destinations of capacity 1, both serving one request. *)
Definition full_service : Service.t :=
  Service.addDestination dest2
    (Service.addDestination dest1 (Service.mk EmptyString [])).

Definition full_world : World :=
  mkWorld
    (<[dest1 := Destination.mk "D1" 1 1]> (<[dest2 := Destination.mk "D2" 1 1]> ∅))
    (<[service := full_service]> ∅)
    EmptyString.

(** A service holding [dest1] alone, before and after [dest1] is removed,
    and the round-robin balancer after it has served one "http" request. *)
Definition single_service : Service.t :=
  Service.addDestination dest1 (Service.mk EmptyString []).

Definition single_world : World :=
  mkWorld (<[dest1 := Destination.Destination "192.168.0.1" 12]> ∅)
          (<[service := single_service]> ∅)
          EmptyString.

Definition emptied_world : World :=
  with_service service (Service.removeDestination dest1 single_service) single_world.

Definition roundRobin_served : RoundRobinLoadBalancer.t :=
  with_queue "http" [dest1] roundRobin.
End scenario.

(** ** Invariants of the containers *)

(** The representation invariant of [std::set]: strictly ascending. *)
Definition set_ok (s : list ptr) : Prop := StronglySorted N.lt s.

(** No queue held by the round-robin balancer is empty. *)
Definition queues_ok (this : RoundRobinLoadBalancer.t) : Prop :=
  ∀ k q, RoundRobinLoadBalancer.destinationQueues this !! k = Some q → q ≠ [].

(** No destination is serving a request. *)
Definition idle (w : World) : Prop :=
  ∀ p d, destination_at w !! p = Some d → (Destination.requestsBeingServed d ≤ 0)%Z.

(** ** main *)

(** The loop of [main], one iteration at a time.  An iteration is given the
    values its extractions store: [choice] for [cin >> choice] and, on the
    paths that reach it, [id] for [cin >> id].  (A failed extraction is not
    modelled.)  The locals of [main] that the loop uses are the three
    balancers; the service and the destinations are in the store. *)
Module main.
Record locals : Type := mk {
  leastConnectionLB : Balancer;
  routedLB : Balancer;
  roundRobinLB : Balancer
}.

(** What [LoadBalancer* lb] points to after the [switch]. *)
Inductive lb_target : Type :=
| to_leastConnectionLB
| to_routedLB
| to_roundRobinLB.

Definition deref (lb : lb_target) (ls : locals) : Balancer :=
  match lb with
  | to_leastConnectionLB => leastConnectionLB ls
  | to_routedLB => routedLB ls
  | to_roundRobinLB => roundRobinLB ls
  end.

Definition assign (lb : lb_target) (b : Balancer) (ls : locals) : locals :=
  match lb with
  | to_leastConnectionLB => mk b (routedLB ls) (roundRobinLB ls)
  | to_routedLB => mk (leastConnectionLB ls) b (roundRobinLB ls)
  | to_roundRobinLB => mk (leastConnectionLB ls) (routedLB ls) b
  end.

(** A call [lb->m(...)]. *)
Definition via {A} (lb : lb_target) (m : M (Balancer * World) A)
  : M (locals * World) A :=
  zoom (λ '(ls, w), (deref lb ls, w))
       (λ '(b, w) '(ls, _), (assign lb b ls, w))
       m.

(** The [switch]: [None] is the [default] branch. *)
Definition switch (choice : int) : option lb_target :=
  match choice with
  | 1%Z => Some to_leastConnectionLB
  | 2%Z => Some to_routedLB
  | 3%Z => Some to_roundRobinLB
  | _ => None
  end.

(** [cout << s] *)
Definition print {T} (s : string) : M (T * World) unit :=
  λ '(t, w), Ok tt (t, mkWorld (destination_at w) (service_at w) (cout w +:+ s)).

(** [try { m } catch (const exception& e) { h e }] *)
Definition try_catch {S A} (m : M S A) (h : exception → M S A) : M S A :=
  λ s, match m s with
       | Throw e s' => h e s'
       | r => r
       end.

(** [e.what()] *)
Definition what (e : exception) : string :=
  match e with runtime_error s => s end.

(** [destination->ipAddress] *)
Definition ipAddress_of {T} (p : ptr) : M (T * World) string :=
  λ '(t, w),
    match destination_at w !! p with
    | Some d => Ok (Destination.ipAddress d) (t, w)
    | None => Undefined
    end.

(** [destination->completeRequest()] *)
Definition completeRequest_at {T} (p : ptr) : M (T * World) unit :=
  zoom snd (λ w '(t, _), (t, w)) (on_destination p Destination.completeRequest).

Definition menu : string :=
  newline
  +:+ "Choose load balancing algorithm (1: Least Connection, 2: Routed, 3: Round Robin, 4: Exit): ".

(** One pass through the body of [while (true)]; the answer tells
    whether the loop goes on ([false] after [break]). *)
Definition iteration `{Hash string} (choice : int) (id : string)
  : M (locals * World) bool :=
  print menu;;
  if (choice =? 4)%Z then ret false
  else
    match switch choice with
    | None => print ("Invalid choice. Try again." +:+ newline);; ret true
    | Some lb =>
        print "Enter request ID: ";;
        let request := Request.mk ("REQ" +:+ id) "http" ∅ in
        try_catch
          (destination ← via lb (balanceLoad request);
           ip ← ipAddress_of destination;
           print ("Request routed to: " +:+ ip +:+ newline);;
           completeRequest_at destination)
          (λ e, print ("Error: " +:+ what e +:+ newline));;
        ret true
    end.

(** The store after [s] has been written to [cout]. *)
Definition with_output (w : World) (s : string) : World :=
  mkWorld (destination_at w) (service_at w) (cout w +:+ s).

(** Where the locals of [main] that are used through pointers are placed.
    The source fixes neither the addresses nor their order; the objects
    being distinct, so are their addresses. *)
Record layout : Type := mk_layout {
  service : ptr;
  dest1 : ptr;
  dest2 : ptr;
  dest3 : ptr
}.

Definition distinct (a : layout) : Prop :=
  dest1 a ≠ dest2 a ∧ dest1 a ≠ dest3 a ∧ dest2 a ≠ dest3 a.

(** [service] after the three [addDestination] calls. *)
Definition service_of (a : layout) : Service.t :=
  Service.addDestination (dest3 a)
    (Service.addDestination (dest2 a)
       (Service.addDestination (dest1 a) (Service.mk EmptyString []))).

(** The store when the loop is entered. *)
Definition world_of (a : layout) : World :=
  mkWorld
    (<[dest1 a := Destination.Destination "192.168.0.1" 12]>
       (<[dest2 a := Destination.Destination "192.168.0.2" 20]>
          (<[dest3 a := Destination.Destination "192.168.0.3" 15]> ∅)))
    (<[service a := service_of a]> ∅)
    EmptyString.

(** The three balancers after their [registerService] calls. *)
Definition locals_of (a : layout) : locals :=
  mk (registerService "http" (service a) (LeastConnection (LoadBalancer.mk ∅)))
     (registerService "http" (service a) (Routed (LoadBalancer.mk ∅)))
     (registerService "http" (service a)
        (RoundRobin (RoundRobinLoadBalancer.mk (LoadBalancer.mk ∅) ∅))).

(** The states in which the loop can be at the top of an iteration: the
    state set up before the loop, and every state left by an iteration
    that goes on. *)
Inductive reachable `{Hash string} (a : layout) : locals * World → Prop :=
| reachable_setup : reachable a (locals_of a, world_of a)
| reachable_iteration (choice : int) (id : string) (s s' : locals * World) :
    reachable a s →
    iteration choice id s = Ok true s' →
    reachable a s'.

(** What holds of the locals and the store throughout the loop: the
    least-connection and routed balancers, the service and the three
    destinations are as set up; the round-robin balancer has kept its
    registration, and its queues are non-empty and hold only the three
    destinations. *)
Definition invariant (a : layout) (ls : locals) (w : World) : Prop :=
  leastConnectionLB ls = leastConnectionLB (locals_of a)
  ∧ routedLB ls = routedLB (locals_of a)
  ∧ (∃ rr,
       roundRobinLB ls = RoundRobin rr
       ∧ LoadBalancer.serviceMap (RoundRobinLoadBalancer.base rr) !! "http"
         = Some (service a)
       ∧ ∀ k q,
           RoundRobinLoadBalancer.destinationQueues rr !! k = Some q →
           q ≠ [] ∧ ∀ p, p ∈ q → p ∈ [dest1 a; dest2 a; dest3 a])
  ∧ destination_at w = destination_at (world_of a)
  ∧ service_at w = service_at (world_of a).

(** The lowest of the three destination addresses. *)
Definition lowest (a : layout) : ptr :=
  (dest1 a `min` (dest2 a `min` dest3 a))%N.
End main.

(** * Properties *)

(** ** Machine integers *)

(** Bounds of [int] values, by linear arithmetic. *)
Ltac int_bounds := unfold int_range, INT_MIN, INT_MAX in *; simpl in *; lia.

Lemma int_wrap_id (z : Z) : int_range z → int_wrap z = z.
Proof.
  intros Hz. unfold int_wrap. rewrite Z.mod_small by int_bounds. lia.
Qed.

(** ** std::set *)

Section std_set.
Implicit Types (x y p : ptr) (s : list ptr).

Lemma set_insert_elem_of p x s : p ∈ set.insert x s ↔ p = x ∨ p ∈ s.
Proof.
  induction s as [|y s IH]; simpl.
  - rewrite elem_of_cons. tauto.
  - destruct (N.ltb_spec x y); [rewrite !elem_of_cons; tauto|].
    destruct (N.eqb_spec x y) as [->|]; [rewrite !elem_of_cons; tauto|].
    rewrite !elem_of_cons, IH. tauto.
Qed.

(** Inserting an address that is already there changes nothing. *)
Lemma set_insert_twice x s : set.insert x (set.insert x s) = set.insert x s.
Proof.
  induction s as [|y s IH]; simpl.
  - by rewrite N.ltb_irrefl, N.eqb_refl.
  - destruct (N.ltb_spec x y) as [Hlt|Hge]; simpl.
    + by rewrite N.ltb_irrefl, N.eqb_refl.
    + destruct (N.eqb_spec x y) as [->|Hne]; simpl.
      * by rewrite N.ltb_irrefl, N.eqb_refl.
      * destruct (N.ltb_spec x y); [lia|].
        destruct (N.eqb_spec x y); [done|]. by rewrite IH.
Qed.

(** The enumeration stays strictly ascending. *)
Lemma set_insert_sorted x s :
  StronglySorted N.lt s → StronglySorted N.lt (set.insert x s).
Proof.
  induction 1 as [|y s Hs IH Hall]; simpl.
  - repeat constructor.
  - destruct (N.ltb_spec x y) as [Hlt|Hge].
    + constructor; [by constructor|]. constructor; [done|].
      eapply Forall_impl; [exact Hall|]. simpl. lia.
    + destruct (N.eqb_spec x y) as [->|Hne]; [by constructor|].
      constructor; [done|]. apply Forall_forall. intros p Hp.
      apply set_insert_elem_of in Hp as [->|Hp]; [lia|].
      by apply (proj1 (Forall_forall _ _) Hall).
Qed.

Lemma set_erase_sorted x s :
  StronglySorted N.lt s → StronglySorted N.lt (set.erase x s) ∧ x ∉ set.erase x s.
Proof.
  induction 1 as [|y s Hs IH Hall]; simpl.
  - split; [constructor|apply not_elem_of_nil].
  - destruct (N.eqb_spec x y) as [->|Hne].
    + split; [done|]. intros Hin.
      pose proof (proj1 (Forall_forall _ _) Hall y Hin). lia.
    + destruct IH as [IHs IHn]. split.
      * constructor; [done|]. apply Forall_forall. intros p Hp.
        apply (proj1 (Forall_forall _ _) Hall).
        clear -Hp. induction s as [|z s IHs]; simpl in Hp; [done|].
        destruct (N.eqb_spec x z); [by apply elem_of_cons; right|].
        apply elem_of_cons in Hp as [->|Hp]; apply elem_of_cons; [by left|].
        right. by apply IHs.
      * rewrite elem_of_cons. intros [?|?]; [done|]. by apply IHn.
Qed.
End std_set.

(** ** The method monad *)

Lemma bind_Ok {S A B} (m : M S A) (f : A → M S B) s a s' :
  m s = Ok a s' → bind m f s = f a s'.
Proof. unfold bind. by intros ->. Qed.

Lemma bind_Throw {S A B} (m : M S A) (f : A → M S B) s e s' :
  m s = Throw e s' → bind m f s = Throw e s'.
Proof. unfold bind. by intros ->. Qed.

Lemma bind_Undefined {S A B} (m : M S A) (f : A → M S B) s :
  m s = Undefined → bind m f s = Undefined.
Proof. unfold bind. by intros ->. Qed.

(** ** Destination *)

Section destination.
Import Destination.
#[local] Open Scope Z_scope.

Implicit Types (this : Destination.t) (cout : ostream) (request : Request.t).

Lemma load_ok_range this : load_ok this → int_range (requestsBeingServed this).
Proof. unfold load_ok, int_range, INT_MIN, INT_MAX. lia. Qed.

Lemma acceptRequest_accepts request this cout :
  int_range (requestsBeingServed this) → int_range (threshold this) →
  requestsBeingServed this < threshold this →
  ∃ line,
    acceptRequest request (this, cout) =
    Ok true (set_requestsBeingServed (requestsBeingServed this + 1) this,
             cout +:+ line).
Proof.
  intros Hl Ht Hlt. unfold acceptRequest.
  destruct (Z.ltb_spec (requestsBeingServed this) (threshold this)); [|lia].
  rewrite int_wrap_id by int_bounds.
  eexists. reflexivity.
Qed.

Lemma acceptRequest_rejects request this cout :
  ¬ requestsBeingServed this < threshold this →
  ∃ line, acceptRequest request (this, cout) = Ok false (this, cout +:+ line).
Proof.
  intros Hge. unfold acceptRequest.
  destruct (Z.ltb_spec (requestsBeingServed this) (threshold this)); [lia|].
  eexists. reflexivity.
Qed.

Lemma completeRequest_decrements this cout :
  int_range (requestsBeingServed this) →
  0 < requestsBeingServed this →
  ∃ line,
    completeRequest (this, cout) =
    Ok tt (set_requestsBeingServed (requestsBeingServed this - 1) this,
           cout +:+ line).
Proof.
  intros Hl Hpos. unfold completeRequest.
  destruct (Z.ltb_spec 0 (requestsBeingServed this)); [|lia].
  rewrite int_wrap_id by int_bounds.
  eexists. reflexivity.
Qed.

Lemma completeRequest_floor this cout :
  requestsBeingServed this ≤ 0 → completeRequest (this, cout) = Ok tt (this, cout).
Proof.
  intros Hle. unfold completeRequest.
  by destruct (Z.ltb_spec 0 (requestsBeingServed this)); [lia|].
Qed.

(** acceptRequest and completeRequest keep [0 ≤ load ≤ threshold]. *)
Lemma acceptRequest_load_ok request this cout :
  load_ok this →
  ∃ b this' cout',
    acceptRequest request (this, cout) = Ok b (this', cout') ∧ load_ok this'
    ∧ threshold this' = threshold this.
Proof.
  intros Hok. pose proof (load_ok_range _ Hok) as Hr. destruct Hok as [Hb Ht].
  destruct (Z.lt_ge_cases (requestsBeingServed this) (threshold this)) as [Hlt|Hge].
  - destruct (acceptRequest_accepts request this cout Hr Ht Hlt) as [line ->].
    eexists _, _, _. split; [reflexivity|]. unfold load_ok. simpl. split; [|done].
    split; [lia|done].
  - destruct (acceptRequest_rejects request this cout) as [line ->]; [lia|].
    eexists _, _, _. split; [reflexivity|]. by unfold load_ok.
Qed.

Lemma completeRequest_load_ok this cout :
  load_ok this →
  ∃ this' cout',
    completeRequest (this, cout) = Ok tt (this', cout') ∧ load_ok this'
    ∧ threshold this' = threshold this.
Proof.
  intros Hok. pose proof (load_ok_range _ Hok) as Hr. destruct Hok as [Hb Ht].
  destruct (Z.lt_ge_cases 0 (requestsBeingServed this)) as [Hpos|Hle].
  - destruct (completeRequest_decrements this cout Hr Hpos) as [line ->].
    eexists _, _. split; [reflexivity|]. unfold load_ok. simpl. split; [|done].
    split; [lia|done].
  - rewrite completeRequest_floor by done.
    eexists _, _. split; [reflexivity|]. by unfold load_ok.
Qed.

Lemma calls_load_ok cs this cout :
  load_ok this →
  ∃ bs this' cout',
    calls cs (this, cout) = Ok bs (this', cout') ∧ load_ok this'
    ∧ threshold this' = threshold this.
Proof.
  revert this cout. induction cs as [|[request|] cs IH]; intros this cout Hok.
  - by eexists [], this, cout.
  - destruct (acceptRequest_load_ok request this cout Hok)
      as (b & this1 & cout1 & Hrun & Hok1 & Ht1).
    destruct (IH this1 cout1 Hok1) as (bs & this2 & cout2 & Hrun2 & Hok2 & Ht2).
    exists (b :: bs), this2, cout2. split; [|split; [done|congruence]].
    cbn [calls]. rewrite (bind_Ok _ _ _ _ _ Hrun), (bind_Ok _ _ _ _ _ Hrun2).
    reflexivity.
  - destruct (completeRequest_load_ok this cout Hok)
      as (this1 & cout1 & Hrun & Hok1 & Ht1).
    destruct (IH this1 cout1 Hok1) as (bs & this2 & cout2 & Hrun2 & Hok2 & Ht2).
    exists bs, this2, cout2. split; [|split; [done|congruence]].
    cbn [calls]. by rewrite (bind_Ok _ _ _ _ _ Hrun).
Qed.

(** With a threshold that is not positive and no request in flight,
    every call leaves the object as it is and every admission fails. *)
Lemma calls_never_accept cs this cout :
  threshold this ≤ 0 → requestsBeingServed this = 0 →
  ∃ bs cout',
    calls cs (this, cout) = Ok bs (this, cout') ∧ Forall (λ b, b = false) bs.
Proof.
  intros Ht Hl. revert cout. induction cs as [|[request|] cs IH]; intros cout.
  - by eexists [], cout.
  - destruct (acceptRequest_rejects request this cout) as [line Hrun]; [lia|].
    destruct (IH (cout +:+ line)) as (bs & cout' & Hrun' & Hall).
    exists (false :: bs), cout'. split; [|by constructor].
    cbn [calls]. rewrite (bind_Ok _ _ _ _ _ Hrun), (bind_Ok _ _ _ _ _ Hrun').
    reflexivity.
  - destruct (IH cout) as (bs & cout' & Hrun' & Hall).
    exists bs, cout'. split; [|done].
    assert (Hle : requestsBeingServed this ≤ 0) by lia.
    cbn [calls]. by rewrite (bind_Ok _ _ _ _ _ (completeRequest_floor this cout Hle)).
Qed.

(** Claim C1.  [acceptRequest] on any destination: when the load is
    below the threshold it returns [true] and the load grows by exactly
    one (threshold and address keep their values); otherwise it returns
    [false] and the destination is unchanged.  Both outcomes are normal
    returns: overload is reported by the boolean alone, nothing is
    thrown.  (The [int] fields hold 32-bit values.) *)
Theorem acceptRequest_spec request this cout :
  int_range (requestsBeingServed this) → int_range (threshold this) →
  (requestsBeingServed this < threshold this →
   ∃ this' line,
     acceptRequest request (this, cout) = Ok true (this', cout +:+ line)
     ∧ requestsBeingServed this' = requestsBeingServed this + 1
     ∧ threshold this' = threshold this
     ∧ ipAddress this' = ipAddress this)
  ∧ (¬ requestsBeingServed this < threshold this →
     ∃ line, acceptRequest request (this, cout) = Ok false (this, cout +:+ line)).
Proof.
  intros Hl Ht. split.
  - intros Hlt.
    destruct (acceptRequest_accepts request this cout Hl Ht Hlt) as [line Hrun].
    eexists _, line. split; [exact Hrun|]. by simpl.
  - by apply acceptRequest_rejects.
Qed.

Lemma acceptRequest_spec_witness :
  let request := Request.mk "REQ1" "http" ∅ in
  let this := Destination.mk "192.168.0.1" 11 12 in
  int_range (requestsBeingServed this) ∧ int_range (threshold this)
  ∧ ((requestsBeingServed this < threshold this →
      ∃ this' line,
        acceptRequest request (this, EmptyString) = Ok true (this', EmptyString +:+ line)
        ∧ requestsBeingServed this' = requestsBeingServed this + 1
        ∧ threshold this' = threshold this
        ∧ ipAddress this' = ipAddress this)
     ∧ (¬ requestsBeingServed this < threshold this →
        ∃ line,
          acceptRequest request (this, EmptyString)
          = Ok false (this, EmptyString +:+ line))).
Proof.
  cbv zeta. split; [|split].
  - int_bounds.
  - int_bounds.
  - apply (acceptRequest_spec (Request.mk "REQ1" "http" ∅)
             (Destination.mk "192.168.0.1" 11 12) EmptyString).
    + int_bounds.
    + int_bounds.
Defined.

(** Claim C3.  [completeRequest] on any destination: a positive load
    drops by exactly one (threshold and address keep their values); a
    load of zero stays zero, so a second release changes nothing; and the
    call always returns normally. *)
Theorem completeRequest_spec this cout :
  int_range (requestsBeingServed this) →
  (0 < requestsBeingServed this →
   ∃ this' line,
     completeRequest (this, cout) = Ok tt (this', cout +:+ line)
     ∧ requestsBeingServed this' = requestsBeingServed this - 1
     ∧ threshold this' = threshold this
     ∧ ipAddress this' = ipAddress this)
  ∧ (requestsBeingServed this = 0 →
     completeRequest (this, cout) = Ok tt (this, cout)
     ∧ bind completeRequest (λ _, completeRequest) (this, cout) = Ok tt (this, cout))
  ∧ (∃ s', completeRequest (this, cout) = Ok tt s').
Proof.
  intros Hl. split; [|split].
  - intros Hpos.
    destruct (completeRequest_decrements this cout Hl Hpos) as [line Hrun].
    eexists _, line. split; [exact Hrun|]. by simpl.
  - intros H0. assert (Hle : requestsBeingServed this ≤ 0) by lia.
    pose proof (completeRequest_floor this cout Hle) as Hrun.
    split; [done|]. by rewrite (bind_Ok _ _ _ _ _ Hrun).
  - destruct (Z.lt_ge_cases 0 (requestsBeingServed this)) as [Hpos|Hle].
    + destruct (completeRequest_decrements this cout Hl Hpos) as [line ->]. eauto.
    + rewrite completeRequest_floor by done. eauto.
Qed.

Lemma completeRequest_spec_witness :
  let this := Destination.mk "192.168.0.2" 1 20 in
  int_range (requestsBeingServed this)
  ∧ ((0 < requestsBeingServed this →
      ∃ this' line,
        completeRequest (this, EmptyString) = Ok tt (this', EmptyString +:+ line)
        ∧ requestsBeingServed this' = requestsBeingServed this - 1
        ∧ threshold this' = threshold this
        ∧ ipAddress this' = ipAddress this)
     ∧ (requestsBeingServed this = 0 →
        completeRequest (this, EmptyString) = Ok tt (this, EmptyString)
        ∧ bind completeRequest (λ _, completeRequest) (this, EmptyString)
          = Ok tt (this, EmptyString))
     ∧ (∃ s', completeRequest (this, EmptyString) = Ok tt s')).
Proof.
  cbv zeta. split.
  - int_bounds.
  - apply (completeRequest_spec (Destination.mk "192.168.0.2" 1 20) EmptyString).
    int_bounds.
Defined.

(** Claim C2.  A destination built with a positive capacity starts with
    load 0, and after every sequence of [acceptRequest] and
    [completeRequest] calls its load is still between 0 and the capacity
    (every call returning normally).  With capacity 1, two admissions in
    a row without a release answer [true] and then [false]. *)
Theorem load_invariant ip capacity :
  0 < capacity → int_range capacity →
  (∀ cs cout,
     ∃ bs this' cout',
       calls cs (Destination ip capacity, cout) = Ok bs (this', cout')
       ∧ 0 ≤ requestsBeingServed this' ≤ capacity
       ∧ threshold this' = capacity)
  ∧ (capacity = 1 →
     ∀ request1 request2 cout,
       ∃ s',
         calls [AcceptRequest request1; AcceptRequest request2]
               (Destination ip capacity, cout)
         = Ok [true; false] s').
Proof.
  intros Hpos Hr. split.
  - intros cs cout.
    assert (Hok : load_ok (Destination ip capacity)).
    { unfold load_ok. simpl. split; [lia|done]. }
    destruct (calls_load_ok cs _ cout Hok) as (bs & this' & cout' & Hrun & Hok' & Ht).
    exists bs, this', cout'. split; [done|]. simpl in Ht. rewrite <- Ht.
    split; [apply Hok'|done].
  - intros -> request1 request2 cout. eexists. reflexivity.
Qed.

Lemma load_invariant_witness :
  0 < 1 ∧ int_range 1
  ∧ ((∀ cs cout,
        ∃ bs this' cout',
          calls cs (Destination "192.168.0.1" 1, cout) = Ok bs (this', cout')
          ∧ 0 ≤ requestsBeingServed this' ≤ 1
          ∧ threshold this' = 1)
     ∧ (1 = 1 →
        ∀ request1 request2 cout,
          ∃ s',
            calls [AcceptRequest request1; AcceptRequest request2]
                  (Destination "192.168.0.1" 1, cout)
            = Ok [true; false] s')).
Proof.
  split; [lia|]. split.
  - int_bounds.
  - apply (load_invariant "192.168.0.1" 1).
    + lia.
    + int_bounds.
Defined.

(** Claim C10.  The constructor accepts any threshold, so a destination
    with a threshold of zero or less exists; on it every [acceptRequest],
    for every request, returns [false], and whatever calls are made the
    load stays 0 (the object is never modified). *)
Theorem nonpositive_threshold ip thresh :
  thresh ≤ 0 →
  threshold (Destination ip thresh) = thresh
  ∧ requestsBeingServed (Destination ip thresh) = 0
  ∧ (∀ request cout,
       ∃ line,
         acceptRequest request (Destination ip thresh, cout)
         = Ok false (Destination ip thresh, cout +:+ line))
  ∧ (∀ cs cout,
       ∃ bs cout',
         calls cs (Destination ip thresh, cout)
         = Ok bs (Destination ip thresh, cout')
         ∧ Forall (λ b, b = false) bs).
Proof.
  intros Hle. split; [done|]. split; [done|]. split.
  - intros request cout. apply acceptRequest_rejects. simpl. lia.
  - intros cs cout. by apply calls_never_accept.
Qed.

Lemma nonpositive_threshold_witness :
  -3 ≤ 0
  ∧ (threshold (Destination "10.0.0.7" (-3)) = -3
     ∧ requestsBeingServed (Destination "10.0.0.7" (-3)) = 0
     ∧ (∀ request cout,
          ∃ line,
            acceptRequest request (Destination "10.0.0.7" (-3), cout)
            = Ok false (Destination "10.0.0.7" (-3), cout +:+ line))
     ∧ (∀ cs cout,
          ∃ bs cout',
            calls cs (Destination "10.0.0.7" (-3), cout)
            = Ok bs (Destination "10.0.0.7" (-3), cout')
            ∧ Forall (λ b, b = false) bs)).
Proof.
  split; [lia|]. apply (nonpositive_threshold "10.0.0.7" (-3)). lia.
Defined.
End destination.


(** ** LoadBalancer::getDestinations *)

Section get_destinations.
Import LoadBalancer.

Implicit Types (this : LoadBalancer.t) (w : World) (request : Request.t).

Lemma subscript_present {V} (dflt : V) (m : gmap string V) k v :
  m !! k = Some v → unordered_map.subscript dflt m k = (v, m).
Proof. unfold unordered_map.subscript. by intros ->. Qed.

Lemma subscript_absent {V} (dflt : V) (m : gmap string V) k :
  m !! k = None → unordered_map.subscript dflt m k = (dflt, <[k := dflt]> m).
Proof. unfold unordered_map.subscript. by intros ->. Qed.

Lemma getDestinations_unknown request this w :
  serviceMap this !! Request.requestType request = None →
  getDestinations request (this, w) = Throw UnknownRequestTypeError (this, w).
Proof. unfold getDestinations, unordered_map.find. by intros ->. Qed.

Lemma getDestinations_found request this w service svc :
  serviceMap this !! Request.requestType request = Some service →
  service_at w !! service = Some svc →
  getDestinations request (this, w) = Ok (Service.destinations svc) (this, w).
Proof.
  intros Hs Hsvc. unfold getDestinations, unordered_map.find.
  rewrite Hs, (subscript_present _ _ _ _ Hs), Hsvc. by destruct this.
Qed.

Lemma getDestinations_dangling request this w service :
  serviceMap this !! Request.requestType request = Some service →
  service_at w !! service = None →
  getDestinations request (this, w) = Undefined.
Proof.
  intros Hs Hsvc. unfold getDestinations, unordered_map.find.
  by rewrite Hs, (subscript_present _ _ _ _ Hs), Hsvc.
Qed.

(** The three ways [getDestinations] can end. *)
Lemma getDestinations_cases request this w :
  (serviceMap this !! Request.requestType request = None
   ∧ getDestinations request (this, w) = Throw UnknownRequestTypeError (this, w))
  ∨ (∃ service,
       serviceMap this !! Request.requestType request = Some service
       ∧ service_at w !! service = None
       ∧ getDestinations request (this, w) = Undefined)
  ∨ (∃ service svc,
       serviceMap this !! Request.requestType request = Some service
       ∧ service_at w !! service = Some svc
       ∧ getDestinations request (this, w) = Ok (Service.destinations svc) (this, w)).
Proof.
  destruct (serviceMap this !! Request.requestType request) as [service|] eqn:Hs.
  - right. destruct (service_at w !! service) as [svc|] eqn:Hsvc.
    + right. exists service, svc. eauto using getDestinations_found.
    + left. exists service. eauto using getDestinations_dangling.
  - left. eauto using getDestinations_unknown.
Qed.
End get_destinations.

(** ** LeastConnectionLoadBalancer *)

Section least_connection.
Import LeastConnectionLoadBalancer.

Implicit Types (this : LoadBalancer.t) (w : World) (request : Request.t).

Lemma load_of_live {T} (this : T) w p n :
  load_at w p = Some n → load_of p (this, w) = Ok n (this, w).
Proof.
  unfold load_at, load_of. destruct (destination_at w !! p); [|done].
  by intros [= ->].
Qed.

Lemma live_load_at w l p : live w l → p ∈ l → ∃ n, load_at w p = Some n.
Proof.
  intros Hlive Hp. destruct (Hlive p Hp) as [d Hd].
  unfold load_at. rewrite Hd. eauto.
Qed.

Lemma less_loaded_live this w a b na nb :
  load_at w a = Some na → load_at w b = Some nb →
  less_loaded a b (this, w) = Ok (na <? nb)%Z (this, w).
Proof.
  intros Ha Hb. unfold less_loaded.
  rewrite (bind_Ok _ _ _ _ _ (load_of_live this w a na Ha)).
  by rewrite (bind_Ok _ _ _ _ _ (load_of_live this w b nb Hb)).
Qed.

(** The scan keeps the first least-loaded element of what it has seen. *)
Lemma min_element_loop_first_least this w rest :
  ∀ pre i smallest,
    live w (pre ++ rest) →
    first_least_loaded w pre i smallest →
    ∃ i' d,
      min_element_loop less_loaded smallest rest (this, w) = Ok d (this, w)
      ∧ first_least_loaded w (pre ++ rest) i' d.
Proof.
  induction rest as [|x rest IH]; intros pre i smallest Hlive Hmin.
  - exists i, smallest. by rewrite app_nil_r.
  - destruct (live_load_at w _ x Hlive) as [nx Hnx]; [set_solver|].
    destruct Hmin as (Hi & n & Hn & Hall).
    pose proof (lookup_lt_Some _ _ _ Hi) as Hlt.
    cbn [min_element_loop].
    rewrite (bind_Ok _ _ _ _ _ (less_loaded_live this w x smallest nx n Hnx Hn)).
    rewrite (cons_middle x pre rest), (assoc_L (++)) in Hlive |- *.
    destruct (Z.ltb_spec nx n) as [Hless|Hge].
    + apply (IH (pre ++ [x]) (length pre) x Hlive).
      split; [by rewrite lookup_app_r, Nat.sub_diag by lia|].
      exists nx. split; [done|]. intros j d' Hj.
      destruct (decide (j < length pre)) as [Hjlt|Hjge].
      * rewrite lookup_app_l in Hj by done.
        destruct (Hall j d' Hj) as (n' & Hn' & Hle & _).
        exists n'. split; [done|]. lia.
      * rewrite lookup_app_r in Hj by lia.
        destruct (j - length pre) as [|?] eqn:Hsub; [|done].
        injection Hj as <-. exists nx. split; [done|]. lia.
    + apply (IH (pre ++ [x]) i smallest Hlive).
      split; [by rewrite lookup_app_l|].
      exists n. split; [done|]. intros j d' Hj.
      destruct (decide (j < length pre)) as [Hjlt|Hjge].
      * rewrite lookup_app_l in Hj by done. by apply Hall.
      * rewrite lookup_app_r in Hj by lia.
        destruct (j - length pre) as [|?] eqn:Hsub; [|done].
        injection Hj as <-. exists nx. split; [done|]. lia.
Qed.

Lemma least_connection_selects request this w service svc :
  LoadBalancer.serviceMap this !! Request.requestType request = Some service →
  service_at w !! service = Some svc →
  Service.destinations svc ≠ [] →
  live w (Service.destinations svc) →
  ∃ i d,
    balanceLoad request (this, w) = Ok d (this, w)
    ∧ first_least_loaded w (Service.destinations svc) i d.
Proof.
  intros Hs Hsvc Hne Hlive. unfold balanceLoad.
  rewrite (bind_Ok _ _ _ _ _ (getDestinations_found request this w service svc Hs Hsvc)).
  destruct (Service.destinations svc) as [|x rest] eqn:Hl; [done|].
  cbn [set.empty].
  destruct (live_load_at w _ x Hlive) as [nx Hnx]; [set_solver|].
  destruct (min_element_loop_first_least this w rest [x] 0 x Hlive) as (i & d & Hrun & Hmin).
  { split; [done|]. exists nx. split; [done|]. intros [|j] d' Hj; [|done].
    injection Hj as <-. exists nx. split; [done|]. lia. }
  exists i, d. split; [|done].
  assert (Hit : min_element less_loaded (x :: rest) (this, w) = Ok (Some d) (this, w)).
  { cbn [min_element]. by rewrite (bind_Ok _ _ _ _ _ Hrun). }
  by rewrite (bind_Ok _ _ _ _ _ Hit).
Qed.

Lemma least_connection_no_candidates request this w service svc :
  LoadBalancer.serviceMap this !! Request.requestType request = Some service →
  service_at w !! service = Some svc →
  Service.destinations svc = [] →
  balanceLoad request (this, w) = Throw NoCandidatesError (this, w).
Proof.
  intros Hs Hsvc Hl. unfold balanceLoad.
  rewrite (bind_Ok _ _ _ _ _ (getDestinations_found request this w service svc Hs Hsvc)).
  by rewrite Hl.
Qed.
End least_connection.

(** ** RoutedLoadBalancer *)

Section routed.
Import RoutedLoadBalancer.
Context `{Hash string}.

Implicit Types (this : LoadBalancer.t) (w : World) (request : Request.t).

(** The position [hash(id) % size] taken in the enumeration [l]. *)
Lemma routed_index_in_range (l : list ptr) (i : string) :
  l ≠ [] → is_Some (l !! N.to_nat (hash i `mod` N.of_nat (length l))%N).
Proof.
  intros Hne. apply lookup_lt_is_Some.
  assert (N.of_nat (length l) ≠ 0%N) by (destruct l; [done|simpl; lia]).
  pose proof (N.mod_lt (hash i) (N.of_nat (length l))). lia.
Qed.

Lemma routed_selects request this w service svc :
  LoadBalancer.serviceMap this !! Request.requestType request = Some service →
  service_at w !! service = Some svc →
  Service.destinations svc ≠ [] →
  ∃ d,
    balanceLoad request (this, w) = Ok d (this, w)
    ∧ Service.destinations svc
        !! N.to_nat (hash (Request.id request)
                       `mod` N.of_nat (length (Service.destinations svc)))%N
      = Some d.
Proof.
  intros Hs Hsvc Hne.
  destruct (routed_index_in_range _ (Request.id request) Hne) as [d Hd].
  exists d. split; [|done]. unfold balanceLoad.
  rewrite (bind_Ok _ _ _ _ _ (getDestinations_found request this w service svc Hs Hsvc)).
  destruct (Service.destinations svc) as [|x rest] eqn:Hl; [done|].
  cbn [set.empty]. cbv zeta.
  destruct (N.eqb_spec (N.of_nat (length (x :: rest))) 0) as [H0|_]; [simpl in H0; lia|].
  by rewrite Hd.
Qed.

Lemma routed_no_candidates request this w service svc :
  LoadBalancer.serviceMap this !! Request.requestType request = Some service →
  service_at w !! service = Some svc →
  Service.destinations svc = [] →
  balanceLoad request (this, w) = Throw NoCandidatesError (this, w).
Proof.
  intros Hs Hsvc Hl. unfold balanceLoad.
  rewrite (bind_Ok _ _ _ _ _ (getDestinations_found request this w service svc Hs Hsvc)).
  by rewrite Hl.
Qed.
End routed.

(** ** RoundRobinLoadBalancer *)

Section round_robin.
Import RoundRobinLoadBalancer.

Implicit Types (this : RoundRobinLoadBalancer.t) (w : World) (request : Request.t).
Implicit Types (q : queue.t) (k : string).

Lemma with_queue_lookup k q this :
  destinationQueues (with_queue k q this) !! k = Some q.
Proof. unfold with_queue. simpl. apply lookup_insert_eq. Qed.

Lemma with_queue_twice k q0 q this :
  with_queue k q (with_queue k q0 this) = with_queue k q this.
Proof. unfold with_queue. simpl. by rewrite insert_insert_eq. Qed.

Lemma with_queue_base k q this : base (with_queue k q this) = base this.
Proof. done. Qed.

Lemma foldl_push acc (l : list ptr) : foldl queue.push acc l = acc ++ l.
Proof.
  revert acc. induction l as [|x l IH]; intros acc; simpl.
  - by rewrite app_nil_r.
  - rewrite IH. unfold queue.push. by rewrite <- (assoc_L (++)).
Qed.

Lemma queue_at_present k this w q :
  destinationQueues this !! k = Some q → queue_at k (this, w) = Ok q (this, w).
Proof.
  intros Hq. unfold queue_at. rewrite (subscript_present _ _ _ _ Hq).
  by destruct this.
Qed.

Lemma set_queue_at_spec k q this w :
  set_queue_at k q (this, w) = Ok tt (with_queue k q this, w).
Proof.
  unfold set_queue_at, with_queue.
  destruct (destinationQueues this !! k) as [q0|] eqn:Hq.
  - by rewrite (subscript_present _ _ _ _ Hq).
  - rewrite (subscript_absent _ _ _ Hq). by rewrite insert_insert_eq.
Qed.

Lemma as_base_getDestinations_found request this w service svc :
  LoadBalancer.serviceMap (base this) !! Request.requestType request = Some service →
  service_at w !! service = Some svc →
  as_base (LoadBalancer.getDestinations request) (this, w)
  = Ok (Service.destinations svc) (this, w).
Proof.
  intros Hs Hsvc. unfold as_base, zoom.
  rewrite (getDestinations_found request (base this) w service svc Hs Hsvc).
  by destruct this.
Qed.

(** The last three statements of [balanceLoad]: take the front of the
    queue, pop it, push it back. *)
Lemma rotate_queue k this w x q' :
  destinationQueues this !! k = Some (x :: q') →
  (destination ← (q ← queue_at k; queue.front q);
   (q ← queue_at k; q' ← queue.pop q; set_queue_at k q');;
   (q ← queue_at k; set_queue_at k (queue.push q destination));;
   ret destination) (this, w)
  = Ok x (with_queue k (q' ++ [x]) this, w).
Proof.
  intros Hq.
  assert (H1 : (q ← queue_at k; queue.front q) (this, w) = Ok x (this, w)).
  { by rewrite (bind_Ok _ _ _ _ _ (queue_at_present k this w _ Hq)). }
  assert (H2 : (q ← queue_at k; q' ← queue.pop q; set_queue_at k q') (this, w)
               = Ok tt (with_queue k q' this, w)).
  { rewrite (bind_Ok _ _ _ _ _ (queue_at_present k this w _ Hq)).
    unfold bind, queue.pop, ret. apply set_queue_at_spec. }
  assert (H3 : (q ← queue_at k; set_queue_at k (queue.push q x))
                 (with_queue k q' this, w)
               = Ok tt (with_queue k (q' ++ [x]) this, w)).
  { rewrite (bind_Ok _ _ _ _ _
               (queue_at_present k _ w _ (with_queue_lookup k q' this))).
    rewrite set_queue_at_spec. by rewrite with_queue_twice. }
  rewrite (bind_Ok _ _ _ _ _ H1), (bind_Ok _ _ _ _ _ H2), (bind_Ok _ _ _ _ _ H3).
  reflexivity.
Qed.

Lemma rotate_queue_empty k this w :
  destinationQueues this !! k = Some [] →
  (destination ← (q ← queue_at k; queue.front q);
   (q ← queue_at k; q' ← queue.pop q; set_queue_at k q');;
   (q ← queue_at k; set_queue_at k (queue.push q destination));;
   ret destination) (this, w)
  = Undefined.
Proof.
  intros Hq. apply bind_Undefined.
  by rewrite (bind_Ok _ _ _ _ _ (queue_at_present k this w _ Hq)).
Qed.

(** A call on a queue that already exists returns its front and rotates
    it, whatever the service currently holds, provided it holds something. *)
Lemma round_robin_step request this w service svc x q' :
  LoadBalancer.serviceMap (base this) !! Request.requestType request = Some service →
  service_at w !! service = Some svc →
  Service.destinations svc ≠ [] →
  destinationQueues this !! Request.requestType request = Some (x :: q') →
  balanceLoad request (this, w)
  = Ok x (with_queue (Request.requestType request) (q' ++ [x]) this, w).
Proof.
  intros Hs Hsvc Hne Hq. unfold balanceLoad.
  rewrite (bind_Ok _ _ _ _ _ (as_base_getDestinations_found request this w _ _ Hs Hsvc)).
  destruct (Service.destinations svc) as [|y rest]; [done|]. cbn [set.empty].
  unfold bind at 1. unfold get. cbn beta iota. unfold unordered_map.find. rewrite Hq.
  unfold bind at 1. unfold ret at 1. by apply rotate_queue.
Qed.

(** The first call for a request type copies the set, in enumeration
    order, into a fresh queue and serves from it. *)
Lemma round_robin_first_use request this w service svc x l' :
  LoadBalancer.serviceMap (base this) !! Request.requestType request = Some service →
  service_at w !! service = Some svc →
  Service.destinations svc = x :: l' →
  destinationQueues this !! Request.requestType request = None →
  balanceLoad request (this, w)
  = Ok x (with_queue (Request.requestType request) (l' ++ [x]) this, w).
Proof.
  intros Hs Hsvc Hl Hq. unfold balanceLoad.
  rewrite (bind_Ok _ _ _ _ _ (as_base_getDestinations_found request this w _ _ Hs Hsvc)).
  rewrite Hl. cbn [set.empty].
  unfold bind at 1. unfold get. cbn beta iota. unfold unordered_map.find. rewrite Hq.
  unfold bind at 1. rewrite set_queue_at_spec, foldl_push. cbn [app].
  rewrite (rotate_queue _ _ w x l' (with_queue_lookup _ (x :: l') this)).
  by rewrite with_queue_twice.
Qed.

Lemma round_robin_broken_queue request this w service svc :
  LoadBalancer.serviceMap (base this) !! Request.requestType request = Some service →
  service_at w !! service = Some svc →
  Service.destinations svc ≠ [] →
  destinationQueues this !! Request.requestType request = Some [] →
  balanceLoad request (this, w) = Undefined.
Proof.
  intros Hs Hsvc Hne Hq. unfold balanceLoad.
  rewrite (bind_Ok _ _ _ _ _ (as_base_getDestinations_found request this w _ _ Hs Hsvc)).
  destruct (Service.destinations svc) as [|y rest]; [done|]. cbn [set.empty].
  unfold bind at 1. unfold get. cbn beta iota. unfold unordered_map.find. rewrite Hq.
  unfold bind at 1. unfold ret at 1. by apply rotate_queue_empty.
Qed.

Lemma round_robin_no_candidates request this w service svc :
  LoadBalancer.serviceMap (base this) !! Request.requestType request = Some service →
  service_at w !! service = Some svc →
  Service.destinations svc = [] →
  balanceLoad request (this, w) = Throw NoCandidatesError (this, w).
Proof.
  intros Hs Hsvc Hl. unfold balanceLoad.
  rewrite (bind_Ok _ _ _ _ _ (as_base_getDestinations_found request this w _ _ Hs Hsvc)).
  by rewrite Hl.
Qed.

Lemma round_robin_unknown request this w :
  LoadBalancer.serviceMap (base this) !! Request.requestType request = None →
  balanceLoad request (this, w) = Throw UnknownRequestTypeError (this, w).
Proof.
  intros Hs. unfold balanceLoad. apply bind_Throw. unfold as_base, zoom.
  rewrite (getDestinations_unknown request (base this) w Hs). by destruct this.
Qed.

Lemma round_robin_dangling request this w service :
  LoadBalancer.serviceMap (base this) !! Request.requestType request = Some service →
  service_at w !! service = None →
  balanceLoad request (this, w) = Undefined.
Proof.
  intros Hs Hsvc. unfold balanceLoad. apply bind_Undefined. unfold as_base, zoom.
  by rewrite (getDestinations_dangling request (base this) w service Hs Hsvc).
Qed.
End round_robin.

(** ** Failures of [balanceLoad] *)

Section failures.
Context `{Hash string}.

Implicit Types (w : World) (request : Request.t) (lb : Balancer).

Lemma candidates_Some (m : gmap string ptr) w k (l : list ptr) :
  candidates m w k = Some l ↔
  ∃ service svc,
    m !! k = Some service ∧ service_at w !! service = Some svc
    ∧ Service.destinations svc = l.
Proof.
  unfold candidates. split.
  - destruct (m !! k) as [service|] eqn:Hs; [|done].
    destruct (service_at w !! service) as [svc|] eqn:Hsvc; [|done].
    intros [= <-]. by exists service, svc.
  - intros (service & svc & -> & -> & ->). done.
Qed.

Lemma errors_differ : UnknownRequestTypeError ≠ NoCandidatesError.
Proof. discriminate. Qed.

(** The comparison and the scan of [min_element] never throw. *)
Lemma less_loaded_no_throw (this : LoadBalancer.t) w a b :
  (∃ r, LeastConnectionLoadBalancer.less_loaded a b (this, w) = Ok r (this, w))
  ∨ LeastConnectionLoadBalancer.less_loaded a b (this, w) = Undefined.
Proof.
  unfold LeastConnectionLoadBalancer.less_loaded, bind, load_of, ret.
  destruct (destination_at w !! a); [|by right].
  destruct (destination_at w !! b); [|by right]. left. eauto.
Qed.

Lemma min_element_loop_no_throw (this : LoadBalancer.t) w rest smallest :
  (∃ d, min_element_loop LeastConnectionLoadBalancer.less_loaded smallest rest (this, w)
        = Ok d (this, w))
  ∨ min_element_loop LeastConnectionLoadBalancer.less_loaded smallest rest (this, w)
    = Undefined.
Proof.
  revert smallest. induction rest as [|x rest IH]; intros smallest.
  - left. by exists smallest.
  - cbn [min_element_loop].
    destruct (less_loaded_no_throw this w x smallest) as [[r Hr]|Hu].
    + rewrite (bind_Ok _ _ _ _ _ Hr). apply IH.
    + right. by apply bind_Undefined.
Qed.

(** What a thrown exception tells, for each of the three classes: the
    state is the one the call started from, and the exception is one of
    the two errors, each with its cause. *)
Lemma least_connection_throw_inv request (this : LoadBalancer.t) w e s' :
  LeastConnectionLoadBalancer.balanceLoad request (this, w) = Throw e s' →
  s' = (this, w) ∧ thrown_for (LoadBalancer.serviceMap this) w request e.
Proof.
  destruct (getDestinations_cases request this w)
    as [[Hs Hrun]|[(service & Hs & Hsvc & Hrun)|(service & svc & Hs & Hsvc & Hrun)]].
  - unfold LeastConnectionLoadBalancer.balanceLoad.
    rewrite (bind_Throw _ _ _ _ _ Hrun). intros [= <- <-].
    split; [done|]. by left.
  - unfold LeastConnectionLoadBalancer.balanceLoad.
    by rewrite (bind_Undefined _ _ _ Hrun).
  - destruct (Service.destinations svc) as [|x rest] eqn:Hl.
    + rewrite (least_connection_no_candidates request this w service svc Hs Hsvc Hl).
      intros [= <- <-]. split; [done|]. right. split; [done|].
      apply candidates_Some. by exists service, svc.
    + unfold LeastConnectionLoadBalancer.balanceLoad.
      rewrite (bind_Ok _ _ _ _ _ Hrun). cbn [set.empty].
      destruct (min_element_loop_no_throw this w rest x) as [[d Hd]|Hu].
      * assert (Hit : min_element LeastConnectionLoadBalancer.less_loaded (x :: rest)
                        (this, w) = Ok (Some d) (this, w)).
        { cbn [min_element]. by rewrite (bind_Ok _ _ _ _ _ Hd). }
        by rewrite (bind_Ok _ _ _ _ _ Hit).
      * assert (Hit : min_element LeastConnectionLoadBalancer.less_loaded (x :: rest)
                        (this, w) = Undefined).
        { cbn [min_element]. by apply bind_Undefined. }
        by rewrite (bind_Undefined _ _ _ Hit).
Qed.

Lemma routed_throw_inv request (this : LoadBalancer.t) w e s' :
  RoutedLoadBalancer.balanceLoad request (this, w) = Throw e s' →
  s' = (this, w) ∧ thrown_for (LoadBalancer.serviceMap this) w request e.
Proof.
  destruct (getDestinations_cases request this w)
    as [[Hs Hrun]|[(service & Hs & Hsvc & Hrun)|(service & svc & Hs & Hsvc & Hrun)]].
  - unfold RoutedLoadBalancer.balanceLoad.
    rewrite (bind_Throw _ _ _ _ _ Hrun). intros [= <- <-].
    split; [done|]. by left.
  - unfold RoutedLoadBalancer.balanceLoad.
    by rewrite (bind_Undefined _ _ _ Hrun).
  - destruct (Service.destinations svc) as [|x rest] eqn:Hl.
    + rewrite (routed_no_candidates request this w service svc Hs Hsvc Hl).
      intros [= <- <-]. split; [done|]. right. split; [done|].
      apply candidates_Some. by exists service, svc.
    + destruct (routed_selects request this w service svc Hs Hsvc) as [d [-> _]];
        [by rewrite Hl|done].
Qed.

Lemma round_robin_throw_inv request (this : RoundRobinLoadBalancer.t) w e s' :
  RoundRobinLoadBalancer.balanceLoad request (this, w) = Throw e s' →
  s' = (this, w)
  ∧ thrown_for (LoadBalancer.serviceMap (RoundRobinLoadBalancer.base this)) w request e.
Proof.
  set (m := LoadBalancer.serviceMap (RoundRobinLoadBalancer.base this)).
  destruct (m !! Request.requestType request) as [service|] eqn:Hs.
  - destruct (service_at w !! service) as [svc|] eqn:Hsvc.
    + destruct (Service.destinations svc) as [|x rest] eqn:Hl.
      * rewrite (round_robin_no_candidates request this w service svc Hs Hsvc Hl).
        intros [= <- <-]. split; [done|]. right. split; [done|].
        apply candidates_Some. by exists service, svc.
      * assert (Hne : Service.destinations svc ≠ []) by by rewrite Hl.
        destruct (RoundRobinLoadBalancer.destinationQueues this
                    !! Request.requestType request) as [[|y q']|] eqn:Hq.
        -- by rewrite (round_robin_broken_queue request this w service svc Hs Hsvc Hne Hq).
        -- by rewrite (round_robin_step request this w service svc y q' Hs Hsvc Hne Hq).
        -- by rewrite (round_robin_first_use request this w service svc x rest
                         Hs Hsvc Hl Hq).
    + by rewrite (round_robin_dangling request this w service Hs Hsvc).
  - rewrite (round_robin_unknown request this w Hs).
    intros [= <- <-]. split; [done|]. by left.
Qed.

(** Dispatch keeps outcomes, wrapping the balancer back into its class. *)
Lemma balanceLoad_LeastConnection request (this : LoadBalancer.t) w :
  balanceLoad request (LeastConnection this, w)
  = match LeastConnectionLoadBalancer.balanceLoad request (this, w) with
    | Ok d (this', w') => Ok d (LeastConnection this', w')
    | Throw e (this', w') => Throw e (LeastConnection this', w')
    | Undefined => Undefined
    end.
Proof.
  unfold balanceLoad, zoom.
  by destruct (LeastConnectionLoadBalancer.balanceLoad request (this, w))
    as [? []|? []|].
Qed.

Lemma balanceLoad_Routed request (this : LoadBalancer.t) w :
  balanceLoad request (Routed this, w)
  = match RoutedLoadBalancer.balanceLoad request (this, w) with
    | Ok d (this', w') => Ok d (Routed this', w')
    | Throw e (this', w') => Throw e (Routed this', w')
    | Undefined => Undefined
    end.
Proof.
  unfold balanceLoad, zoom.
  by destruct (RoutedLoadBalancer.balanceLoad request (this, w)) as [? []|? []|].
Qed.

Lemma balanceLoad_RoundRobin request (this : RoundRobinLoadBalancer.t) w :
  balanceLoad request (RoundRobin this, w)
  = match RoundRobinLoadBalancer.balanceLoad request (this, w) with
    | Ok d (this', w') => Ok d (RoundRobin this', w')
    | Throw e (this', w') => Throw e (RoundRobin this', w')
    | Undefined => Undefined
    end.
Proof.
  unfold balanceLoad, zoom.
  by destruct (RoundRobinLoadBalancer.balanceLoad request (this, w)) as [? []|? []|].
Qed.

Lemma balanceLoad_throw_inv request lb w e s' :
  balanceLoad request (lb, w) = Throw e s' →
  s' = (lb, w) ∧ thrown_for (serviceMap_of lb) w request e.
Proof.
  destruct lb as [this|this|this].
  - rewrite balanceLoad_LeastConnection.
    destruct (LeastConnectionLoadBalancer.balanceLoad request (this, w))
      as [? []|e0 [this' w']|] eqn:Hrun; [done| |done].
    intros [= <- <-]. apply least_connection_throw_inv in Hrun as [[= -> ->] Hwhy].
    done.
  - rewrite balanceLoad_Routed.
    destruct (RoutedLoadBalancer.balanceLoad request (this, w))
      as [? []|e0 [this' w']|] eqn:Hrun; [done| |done].
    intros [= <- <-]. apply routed_throw_inv in Hrun as [[= -> ->] Hwhy].
    done.
  - rewrite balanceLoad_RoundRobin.
    destruct (RoundRobinLoadBalancer.balanceLoad request (this, w))
      as [? []|e0 [this' w']|] eqn:Hrun; [done| |done].
    intros [= <- <-]. apply round_robin_throw_inv in Hrun as [[= -> ->] Hwhy].
    done.
Qed.

Lemma balanceLoad_unknown request lb w :
  serviceMap_of lb !! Request.requestType request = None →
  balanceLoad request (lb, w) = Throw UnknownRequestTypeError (lb, w).
Proof.
  destruct lb as [this|this|this]; cbn [serviceMap_of]; intros Hs.
  - rewrite balanceLoad_LeastConnection.
    unfold LeastConnectionLoadBalancer.balanceLoad.
    by rewrite (bind_Throw _ _ _ _ _ (getDestinations_unknown request this w Hs)).
  - rewrite balanceLoad_Routed. unfold RoutedLoadBalancer.balanceLoad.
    by rewrite (bind_Throw _ _ _ _ _ (getDestinations_unknown request this w Hs)).
  - rewrite balanceLoad_RoundRobin.
    by rewrite (round_robin_unknown request this w Hs).
Qed.

Lemma balanceLoad_no_candidates request lb w :
  candidates (serviceMap_of lb) w (Request.requestType request) = Some [] →
  balanceLoad request (lb, w) = Throw NoCandidatesError (lb, w).
Proof.
  intros (service & svc & Hs & Hsvc & Hl)%candidates_Some.
  destruct lb as [this|this|this]; simpl in Hs.
  - rewrite balanceLoad_LeastConnection.
    by rewrite (least_connection_no_candidates request this w service svc Hs Hsvc Hl).
  - rewrite balanceLoad_Routed.
    by rewrite (routed_no_candidates request this w service svc Hs Hsvc Hl).
  - rewrite balanceLoad_RoundRobin.
    by rewrite (round_robin_no_candidates request this w service svc Hs Hsvc Hl).
Qed.

Lemma balanceLoad_selects request lb w (l : list ptr) :
  candidates (serviceMap_of lb) w (Request.requestType request) = Some l →
  l ≠ [] →
  ready lb w (Request.requestType request) l →
  ∃ d lb',
    balanceLoad request (lb, w) = Ok d (lb', w)
    ∧ selected lb (Request.requestType request) l d lb'.
Proof.
  intros (service & svc & Hs & Hsvc & Hl)%candidates_Some Hne Hready. subst l.
  destruct lb as [this|this|this]; simpl in Hs, Hready.
  - destruct (least_connection_selects request this w service svc Hs Hsvc Hne Hready)
      as (i & d & Hrun & Hi & _).
    exists d, (LeastConnection this). rewrite balanceLoad_LeastConnection, Hrun.
    split; [done|]. split; [|done]. apply list_elem_of_lookup. eauto.
  - destruct (routed_selects request this w service svc Hs Hsvc Hne) as (d & Hrun & Hd).
    exists d, (Routed this). rewrite balanceLoad_Routed, Hrun.
    split; [done|]. split; [|done]. apply list_elem_of_lookup. eauto.
  - destruct (Service.destinations svc) as [|x rest] eqn:Hl; [done|].
    cbn [selected].
    destruct (RoundRobinLoadBalancer.destinationQueues this
                !! Request.requestType request) as [[|y q']|] eqn:Hq; [done| |].
    + eexists y, _. rewrite balanceLoad_RoundRobin.
      rewrite (round_robin_step request this w service svc y q' Hs Hsvc); [| |done].
      * split; [done|]. by exists q'.
      * by rewrite Hl.
    + eexists x, _. rewrite balanceLoad_RoundRobin.
      rewrite (round_robin_first_use request this w service svc x rest Hs Hsvc Hl Hq).
      split; [done|]. by exists rest.
Qed.
End failures.

(** ** Selection by the three balancers *)

Section selection.
Context `{Hash string}.

Implicit Types (w : World) (request : Request.t).

Lemma live_Forall w (l : list ptr) :
  Forall (λ p, is_Some (destination_at w !! p)) l → live w l.
Proof. intros Hall p Hp. by apply (proj1 (Forall_forall _ _) Hall). Qed.

(** Claim C4.  On a non-empty candidate set (of live destinations) the
    least-connection balancer returns a candidate whose load is at most
    the load of every candidate, and every candidate enumerated before it
    has a strictly greater load: among the least loaded it is the first
    in the enumeration order of the set.  Nothing is modified. *)
Theorem least_connection_first_minimum request (this : LoadBalancer.t) w service svc :
  LoadBalancer.serviceMap this !! Request.requestType request = Some service →
  service_at w !! service = Some svc →
  Service.destinations svc ≠ [] →
  live w (Service.destinations svc) →
  ∃ i d n,
    LeastConnectionLoadBalancer.balanceLoad request (this, w) = Ok d (this, w)
    ∧ Service.destinations svc !! i = Some d
    ∧ load_at w d = Some n
    ∧ ∀ j d',
        Service.destinations svc !! j = Some d' →
        ∃ n', load_at w d' = Some n' ∧ (n ≤ n')%Z ∧ (j < i → (n < n')%Z).
Proof.
  intros Hs Hsvc Hne Hlive.
  destruct (least_connection_selects request this w service svc Hs Hsvc Hne Hlive)
    as (i & d & Hrun & Hi & n & Hn & Hall).
  by exists i, d, n.
Qed.

(** Claim C5.  The routed balancer is a function of the request id and of
    the candidate set: two calls whose requests carry the same id, made
    where the request type resolves to the same non-empty candidate set,
    return the same destination, the one at position [hash(id) mod size]
    of the set's enumeration; a call changes nothing, so this holds in
    particular for a call repeated after the first. *)
Theorem routed_deterministic request1 request2 (this1 this2 : LoadBalancer.t)
    w1 w2 (l : list ptr) :
  Request.id request1 = Request.id request2 →
  candidates (LoadBalancer.serviceMap this1) w1 (Request.requestType request1) = Some l →
  candidates (LoadBalancer.serviceMap this2) w2 (Request.requestType request2) = Some l →
  l ≠ [] →
  ∃ d,
    RoutedLoadBalancer.balanceLoad request1 (this1, w1) = Ok d (this1, w1)
    ∧ RoutedLoadBalancer.balanceLoad request2 (this2, w2) = Ok d (this2, w2)
    ∧ l !! N.to_nat (hash (Request.id request1) `mod` N.of_nat (length l))%N = Some d.
Proof.
  intros Hid (s1 & svc1 & Hs1 & Hsvc1 & Hl1)%candidates_Some
         (s2 & svc2 & Hs2 & Hsvc2 & Hl2)%candidates_Some Hne.
  destruct (routed_selects request1 this1 w1 s1 svc1 Hs1 Hsvc1) as (d1 & Hrun1 & Hd1);
    [by rewrite Hl1|].
  destruct (routed_selects request2 this2 w2 s2 svc2 Hs2 Hsvc2) as (d2 & Hrun2 & Hd2);
    [by rewrite Hl2|].
  rewrite Hl1 in Hd1. rewrite Hl2, <- Hid, Hd1 in Hd2. injection Hd2 as <-.
  by exists d1.
Qed.
End selection.

Lemma least_connection_first_minimum_witness :
  let request := scenario.request "1" in
  let this := LoadBalancer.registerService "http" scenario.service (LoadBalancer.mk ∅) in
  let w := scenario.main_world in
  let svc := scenario.main_service in
  LoadBalancer.serviceMap this !! Request.requestType request = Some scenario.service
  ∧ service_at w !! scenario.service = Some svc
  ∧ Service.destinations svc ≠ []
  ∧ live w (Service.destinations svc)
  ∧ ∃ i d n,
      LeastConnectionLoadBalancer.balanceLoad request (this, w) = Ok d (this, w)
      ∧ Service.destinations svc !! i = Some d
      ∧ load_at w d = Some n
      ∧ ∀ j d',
          Service.destinations svc !! j = Some d' →
          ∃ n', load_at w d' = Some n' ∧ (n ≤ n')%Z ∧ (j < i → (n < n')%Z).
Proof.
  cbv zeta.
  assert (Hlive : live scenario.main_world (Service.destinations scenario.main_service)).
  { apply live_Forall. repeat constructor; vm_compute; eauto. }
  split; [reflexivity|]. split; [reflexivity|]. split; [discriminate|].
  split; [exact Hlive|].
  apply (least_connection_first_minimum (scenario.request "1")
           (LoadBalancer.registerService "http" scenario.service (LoadBalancer.mk ∅))
           scenario.main_world scenario.service scenario.main_service).
  - reflexivity.
  - reflexivity.
  - discriminate.
  - exact Hlive.
Defined.

Lemma routed_deterministic_witness :
  let request1 := scenario.request "42" in
  let request2 := Request.mk "REQ42" "http" {[ "Priority" := "High" ]} in
  let this := LoadBalancer.registerService "http" scenario.service (LoadBalancer.mk ∅) in
  let w := scenario.main_world in
  let l := [scenario.dest1; scenario.dest2; scenario.dest3] in
  Request.id request1 = Request.id request2
  ∧ candidates (LoadBalancer.serviceMap this) w (Request.requestType request1) = Some l
  ∧ candidates (LoadBalancer.serviceMap this) w (Request.requestType request2) = Some l
  ∧ l ≠ []
  ∧ ∃ d,
      @RoutedLoadBalancer.balanceLoad scenario.length_hash request1 (this, w)
      = Ok d (this, w)
      ∧ @RoutedLoadBalancer.balanceLoad scenario.length_hash request2 (this, w)
        = Ok d (this, w)
      ∧ l !! N.to_nat (scenario.length_hash (Request.id request1)
                         `mod` N.of_nat (length l))%N = Some d.
Proof.
  cbv zeta.
  split; [reflexivity|]. split; [reflexivity|]. split; [reflexivity|].
  split; [discriminate|].
  apply (@routed_deterministic scenario.length_hash
           (scenario.request "42")
           (Request.mk "REQ42" "http" {[ "Priority" := "High" ]})
           (LoadBalancer.registerService "http" scenario.service (LoadBalancer.mk ∅))
           (LoadBalancer.registerService "http" scenario.service (LoadBalancer.mk ∅))
           scenario.main_world scenario.main_world
           [scenario.dest1; scenario.dest2; scenario.dest3]).
  - reflexivity.
  - reflexivity.
  - reflexivity.
  - discriminate.
Defined.

(** ** Round robin: rotation *)

Section rotation.
Context `{Hash string}.

Implicit Types (this : RoundRobinLoadBalancer.t) (w : World) (request : Request.t).
Implicit Types (q l : list ptr) (k : string).

(** Position [i + 1] of a cycle through [x :: q'] is position [i] of the
    cycle through the rotated queue [q' ++ [x]]. *)
Lemma lookup_rotated (x : ptr) q' i :
  (q' ++ [x]) !! (i mod S (length q')) = (x :: q') !! (S i mod S (length q')).
Proof.
  set (n := S (length q')).
  assert (Hlt : i mod n < n) by (apply Nat.mod_upper_bound; lia).
  replace (S i) with (i + 1) by lia.
  rewrite <- (Nat.Div0.add_mod_idemp_l i 1 n).
  generalize dependent (i mod n). intros m Hlt.
  destruct (decide (m + 1 < n)) as [Hin|Hwrap].
  - rewrite (Nat.mod_small (m + 1) n Hin).
    replace (m + 1) with (S m) by lia.
    cbn [lookup list_lookup]. apply lookup_app_l. unfold n in Hin. lia.
  - assert (Hm : m = length q') by (unfold n in *; lia). subst m.
    replace (length q' + 1) with n by (unfold n; lia).
    rewrite Nat.Div0.mod_same.
    rewrite lookup_app_r by lia. by rewrite Nat.sub_diag.
Qed.

(** One call: the queue in force is the stored one, or on first use the
    enumeration of the candidate set; its front is returned and moved to
    the back. *)
Lemma round_robin_serves request this w l x q' :
  candidates (LoadBalancer.serviceMap (RoundRobinLoadBalancer.base this)) w
             (Request.requestType request) = Some l →
  l ≠ [] →
  RoundRobinLoadBalancer.destinationQueues this !! Request.requestType request
    = Some (x :: q')
  ∨ (RoundRobinLoadBalancer.destinationQueues this !! Request.requestType request = None
     ∧ l = x :: q') →
  balanceLoad request (RoundRobin this, w)
  = Ok x (RoundRobin (with_queue (Request.requestType request) (q' ++ [x]) this), w).
Proof.
  intros (service & svc & Hs & Hsvc & Hl)%candidates_Some Hne Hq.
  rewrite balanceLoad_RoundRobin. destruct Hq as [Hq|[Hq ->]].
  - rewrite (round_robin_step request this w service svc x q' Hs Hsvc); [done| |done].
    by rewrite Hl.
  - by rewrite (round_robin_first_use request this w service svc x q' Hs Hsvc Hl Hq).
Qed.

(** Claim C6.  Round robin cycles.  Let the rotation sequence of a request
    type be [q]: the queue already materialized for it or, on first use,
    the enumeration of its (non-empty) candidate set.  Then successive
    calls for that request type, the candidate set staying non-empty,
    all return normally and the call number [i] (from 0) returns the
    element of [q] at position [i mod length q]: for [q = [A; B; C]] the
    calls return A, B, C, A, B, C, ... *)
Theorem round_robin_cycles k w l requests this q :
  Forall (λ request, Request.requestType request = k) requests →
  candidates (LoadBalancer.serviceMap (RoundRobinLoadBalancer.base this)) w k = Some l →
  l ≠ [] →
  q ≠ [] →
  RoundRobinLoadBalancer.destinationQueues this !! k = Some q
  ∨ (RoundRobinLoadBalancer.destinationQueues this !! k = None ∧ l = q) →
  ∃ ds this',
    balanceLoads requests (RoundRobin this, w) = Ok ds (RoundRobin this', w)
    ∧ length ds = length requests
    ∧ ∀ i, i < length requests → ds !! i = q !! (i mod length q).
Proof.
  revert this q.
  induction requests as [|request requests IH]; intros this q Hk Hc Hne Hq Hqueue.
  - exists [], this. split; [done|]. split; [done|]. simpl. lia.
  - destruct q as [|x q']; [done|].
    apply Forall_cons in Hk as [Hk1 Hk].
    assert (Hstep : balanceLoad request (RoundRobin this, w)
                    = Ok x (RoundRobin (with_queue k (q' ++ [x]) this), w)).
    { rewrite <- Hk1. apply (round_robin_serves request this w l x q').
      - by rewrite Hk1.
      - done.
      - rewrite Hk1. destruct Hqueue as [?|[? ?]]; [by left|by right]. }
    destruct (IH (with_queue k (q' ++ [x]) this) (q' ++ [x]) Hk)
      as (ds & this' & Hrun & Hlen & Hnth).
    + done.
    + done.
    + by destruct q'.
    + left. apply with_queue_lookup.
    + exists (x :: ds), this'. split; [|split].
      * cbn [balanceLoads].
        rewrite (bind_Ok _ _ _ _ _ Hstep), (bind_Ok _ _ _ _ _ Hrun). reflexivity.
      * simpl. by rewrite Hlen.
      * intros [|i] Hi.
        -- by rewrite Nat.Div0.mod_0_l.
        -- cbn [lookup list_lookup]. rewrite Hnth by (simpl in Hi; lia).
           rewrite length_app. cbn [length].
           replace (length q' + 1) with (S (length q')) by lia.
           apply lookup_rotated.
Qed.

End rotation.

Lemma round_robin_cycles_witness :
  let requests := scenario.request <$> ["1"; "2"; "3"; "4"; "5"; "6"; "7"] in
  let q := [scenario.dest1; scenario.dest2; scenario.dest3] in
  Forall (λ request, Request.requestType request = "http") requests
  ∧ candidates (LoadBalancer.serviceMap (RoundRobinLoadBalancer.base scenario.roundRobin))
               scenario.main_world "http" = Some q
  ∧ q ≠ []
  ∧ q ≠ []
  ∧ (RoundRobinLoadBalancer.destinationQueues scenario.roundRobin !! "http" = Some q
     ∨ (RoundRobinLoadBalancer.destinationQueues scenario.roundRobin !! "http" = None
        ∧ q = q))
  ∧ ∃ ds this',
      @balanceLoads scenario.length_hash requests
        (RoundRobin scenario.roundRobin, scenario.main_world)
      = Ok ds (RoundRobin this', scenario.main_world)
      ∧ length ds = length requests
      ∧ ∀ i, i < length requests → ds !! i = q !! (i mod length q).
Proof.
  cbv zeta.
  assert (Hk : Forall (λ request, Request.requestType request = "http")
                 (scenario.request <$> ["1"; "2"; "3"; "4"; "5"; "6"; "7"])).
  { repeat constructor. }
  split; [exact Hk|]. split; [reflexivity|]. split; [discriminate|].
  split; [discriminate|]. split; [right; split; reflexivity|].
  apply (@round_robin_cycles scenario.length_hash "http" scenario.main_world
           [scenario.dest1; scenario.dest2; scenario.dest3]
           (scenario.request <$> ["1"; "2"; "3"; "4"; "5"; "6"; "7"])
           scenario.roundRobin
           [scenario.dest1; scenario.dest2; scenario.dest3]).
  - exact Hk.
  - reflexivity.
  - discriminate.
  - discriminate.
  - right. split; reflexivity.
Defined.

(** Seven round-robin requests over three destinations, run: they visit
    the destinations in turn. *)
Example round_robin_main_run :
  ∃ this',
    @balanceLoads scenario.length_hash
      (scenario.request <$> ["1"; "2"; "3"; "4"; "5"; "6"; "7"])
      (scenario.roundRobinLB, scenario.main_world)
    = Ok [scenario.dest1; scenario.dest2; scenario.dest3;
          scenario.dest1; scenario.dest2; scenario.dest3; scenario.dest1]
         (RoundRobin this', scenario.main_world).
Proof. eexists. vm_compute. reflexivity. Qed.

(** ** Round robin: membership changes after the queue exists *)

(** Claim C7, as stated, fails.  A service holds [dest1] alone; the first
    round-robin call returns [dest1] and leaves the queue [[dest1]];
    [dest1] is then removed from the service; the next call does not
    continue the rotation but throws "No destinations available.", so the
    change of membership is reflected in the selection. *)
Lemma stale_rotation_counterexample :
  RoundRobinLoadBalancer.balanceLoad (scenario.request "1")
    (scenario.roundRobin, scenario.single_world)
  = Ok scenario.dest1 (scenario.roundRobin_served, scenario.single_world)
  ∧ on_service scenario.service (Service.removeDestination scenario.dest1)
      scenario.single_world
    = Ok tt scenario.emptied_world
  ∧ RoundRobinLoadBalancer.balanceLoad (scenario.request "2")
      (scenario.roundRobin_served, scenario.emptied_world)
    = Throw NoCandidatesError (scenario.roundRobin_served, scenario.emptied_world)
  ∧ ¬ rotation_ignores_membership.
Proof.
  split; [vm_compute; reflexivity|]. split; [vm_compute; reflexivity|].
  split; [vm_compute; reflexivity|].
  intros Hclaim.
  specialize (Hclaim (scenario.request "2") scenario.roundRobin_served
                scenario.single_world scenario.service scenario.single_service
                [RemoveDestination scenario.dest1] scenario.dest1 []
                eq_refl eq_refl eq_refl).
  vm_compute in Hclaim. discriminate Hclaim.
Qed.

Section stale_rotation.
Implicit Types (this : RoundRobinLoadBalancer.t) (w : World) (request : Request.t).

(** Claim C7, amended.  Once the queue of a request type exists, with
    front [x], additions to and removals from the service's candidate set
    are not reflected in the selection as long as they leave the set
    non-empty: the next call returns [x] and rotates the stale queue,
    whatever the set now contains.  If the changes have emptied the set,
    the call throws "No destinations available." and leaves the queue as
    it is. *)
Theorem stale_rotation request this w service svc changes x (q' : list ptr) :
  LoadBalancer.serviceMap (RoundRobinLoadBalancer.base this)
    !! Request.requestType request = Some service →
  service_at w !! service = Some svc →
  RoundRobinLoadBalancer.destinationQueues this !! Request.requestType request
    = Some (x :: q') →
  let svc' := foldl change_membership svc changes in
  let w' := with_service service svc' w in
  (Service.destinations svc' ≠ [] →
   RoundRobinLoadBalancer.balanceLoad request (this, w')
   = Ok x (with_queue (Request.requestType request) (q' ++ [x]) this, w'))
  ∧ (Service.destinations svc' = [] →
     RoundRobinLoadBalancer.balanceLoad request (this, w')
     = Throw NoCandidatesError (this, w')).
Proof.
  intros Hs Hsvc Hq svc' w'.
  assert (Hsvc' : service_at w' !! service = Some svc')
    by apply lookup_insert_eq.
  split; intros Hl.
  - by apply (round_robin_step request this w' service svc').
  - by apply (round_robin_no_candidates request this w' service svc').
Qed.
End stale_rotation.

Lemma stale_rotation_witness :
  let request := scenario.request "8" in
  let this :=
    with_queue "http" [scenario.dest2; scenario.dest3; scenario.dest1]
               scenario.roundRobin in
  let changes := [RemoveDestination scenario.dest2; AddDestination 9000%N] in
  let svc' := foldl change_membership scenario.main_service changes in
  let w' := with_service scenario.service svc' scenario.main_world in
  LoadBalancer.serviceMap (RoundRobinLoadBalancer.base this)
    !! Request.requestType request = Some scenario.service
  ∧ service_at scenario.main_world !! scenario.service = Some scenario.main_service
  ∧ RoundRobinLoadBalancer.destinationQueues this !! Request.requestType request
    = Some [scenario.dest2; scenario.dest3; scenario.dest1]
  ∧ Service.destinations svc' = [scenario.dest1; scenario.dest3; 9000%N]
  ∧ (Service.destinations svc' ≠ [] →
     RoundRobinLoadBalancer.balanceLoad request (this, w')
     = Ok scenario.dest2
          (with_queue (Request.requestType request)
             ([scenario.dest3; scenario.dest1] ++ [scenario.dest2]) this, w'))
  ∧ (Service.destinations svc' = [] →
     RoundRobinLoadBalancer.balanceLoad request (this, w')
     = Throw NoCandidatesError (this, w')).
Proof.
  cbv zeta.
  split; [reflexivity|]. split; [reflexivity|]. split; [reflexivity|].
  split; [reflexivity|].
  apply (stale_rotation (scenario.request "8")
           (with_queue "http" [scenario.dest2; scenario.dest3; scenario.dest1]
              scenario.roundRobin)
           scenario.main_world scenario.service scenario.main_service
           [RemoveDestination scenario.dest2; AddDestination 9000%N]
           scenario.dest2 [scenario.dest3; scenario.dest1]).
  - reflexivity.
  - reflexivity.
  - reflexivity.
Defined.

(** ** Errors of [balanceLoad] *)

Section errors.
Context `{Hash string}.

Implicit Types (w : World) (request : Request.t) (lb : Balancer).

(** Claim C8.  For each of the three balancers, [balanceLoad] throws the
    unknown-request-type error exactly when no service is registered for
    the request type, and the no-candidates error exactly when the
    service it resolves to has an empty set of destinations.  When the
    set is non-empty no error is thrown, and the call returns a
    destination whatever the loads are, in particular when every
    candidate is at capacity: a member of the candidate set for least
    connection and routed, the front of the queue in force for round
    robin (see [selected]). *)
Theorem balanceLoad_errors request lb w :
  ((∃ s', balanceLoad request (lb, w) = Throw UnknownRequestTypeError s')
   ↔ serviceMap_of lb !! Request.requestType request = None)
  ∧ ((∃ s', balanceLoad request (lb, w) = Throw NoCandidatesError s')
     ↔ candidates (serviceMap_of lb) w (Request.requestType request) = Some [])
  ∧ (∀ l : list ptr,
       candidates (serviceMap_of lb) w (Request.requestType request) = Some l →
       l ≠ [] →
       (∀ e s', balanceLoad request (lb, w) ≠ Throw e s')
       ∧ (ready lb w (Request.requestType request) l →
          ∃ d lb',
            balanceLoad request (lb, w) = Ok d (lb', w)
            ∧ selected lb (Request.requestType request) l d lb')).
Proof.
  split; [|split].
  - split.
    + intros [s' Hrun]. apply balanceLoad_throw_inv in Hrun as [_ [[_ Hs]|[He _]]].
      * done.
      * by destruct errors_differ.
    + intros Hs. eexists. by apply balanceLoad_unknown.
  - split.
    + intros [s' Hrun]. apply balanceLoad_throw_inv in Hrun as [_ [[He _]|[_ Hc]]].
      * by destruct errors_differ.
      * done.
    + intros Hc. eexists. by apply balanceLoad_no_candidates.
  - intros l Hc Hne. split.
    + intros e s' Hrun. apply balanceLoad_throw_inv in Hrun as [_ [[_ Hs]|[_ Hc']]].
      * unfold candidates in Hc. by rewrite Hs in Hc.
      * rewrite Hc in Hc'. by injection Hc' as ->.
    + intros Hready. by apply balanceLoad_selects.
Qed.

(** Claim C9.  A failing [balanceLoad] changes nothing, for each of the
    three balancers: the state carried by a thrown exception (the
    balancer with its service map and, for round robin, its queues; the
    destinations with their loads; the services with their sets) is the
    state the call started from, and the exception is one of the two
    errors. *)
Theorem balanceLoad_failure_atomic request lb w e lb' w' :
  balanceLoad request (lb, w) = Throw e (lb', w') →
  lb' = lb ∧ w' = w ∧ (e = UnknownRequestTypeError ∨ e = NoCandidatesError).
Proof.
  intros Hrun. apply balanceLoad_throw_inv in Hrun as [[= -> ->] Hwhy].
  split; [done|]. split; [done|]. destruct Hwhy as [[-> _]|[-> _]]; eauto.
Qed.
End errors.

Lemma balanceLoad_errors_witness :
  let request := scenario.request "3" in
  let lb := scenario.leastConnectionLB in
  let w := scenario.full_world in
  let l := [scenario.dest1; scenario.dest2] in
  candidates (serviceMap_of lb) w (Request.requestType request) = Some l
  ∧ Forall (λ p, ∃ d, destination_at w !! p = Some d
                      ∧ Destination.requestsBeingServed d = Destination.threshold d) l
  ∧ ready lb w (Request.requestType request) l
  ∧ ∃ d lb',
      @balanceLoad scenario.length_hash request (lb, w) = Ok d (lb', w)
      ∧ selected lb (Request.requestType request) l d lb'.
Proof.
  cbv zeta.
  assert (Hready : ready scenario.leastConnectionLB scenario.full_world "http"
                     [scenario.dest1; scenario.dest2]).
  { apply live_Forall. repeat constructor; vm_compute; eauto. }
  split; [reflexivity|]. split; [repeat constructor; eexists; split; reflexivity|].
  split; [exact Hready|].
  destruct (@balanceLoad_errors scenario.length_hash (scenario.request "3")
              scenario.leastConnectionLB scenario.full_world) as (_ & _ & Hsel).
  destruct (Hsel [scenario.dest1; scenario.dest2]) as [_ Hok].
  - reflexivity.
  - discriminate.
  - exact (Hok Hready).
Defined.

Lemma balanceLoad_failure_atomic_witness :
  let request := Request.mk "REQ9" "grpc" ∅ in
  @balanceLoad scenario.length_hash request (scenario.roundRobinLB, scenario.main_world)
  = Throw UnknownRequestTypeError (scenario.roundRobinLB, scenario.main_world)
  ∧ (scenario.roundRobinLB = scenario.roundRobinLB
     ∧ scenario.main_world = scenario.main_world
     ∧ (UnknownRequestTypeError = UnknownRequestTypeError
        ∨ UnknownRequestTypeError = NoCandidatesError)).
Proof.
  cbv zeta. split; [vm_compute; reflexivity|].
  apply (@balanceLoad_failure_atomic scenario.length_hash (Request.mk "REQ9" "grpc" ∅)
           scenario.roundRobinLB scenario.main_world UnknownRequestTypeError
           scenario.roundRobinLB scenario.main_world).
  vm_compute. reflexivity.
Defined.

(** ** A run of admission after routing *)

(** Two destinations of capacity 1 behind a least-connection balancer.
    The first request goes to the first destination (tie) and is accepted,
    the second to the other one and is accepted, the third is routed
    again to the first, now full like the other one: routing raises
    nothing, and the admission answers [false]. *)
Example least_connection_then_accept :
  ∃ w',
    (a ← @route_and_accept scenario.length_hash (scenario.request "1");
     b ← @route_and_accept scenario.length_hash (scenario.request "2");
     c ← @route_and_accept scenario.length_hash (scenario.request "3");
     ret [a; b; c])%method
      (scenario.leastConnectionLB, scenario.idle_world)
    = Ok [(scenario.dest1, true); (scenario.dest2, true); (scenario.dest1, false)]
         (scenario.leastConnectionLB, w')
    ∧ destination_at w' = destination_at scenario.full_world.
Proof. eexists. split; vm_compute; reflexivity. Qed.

(** * Further properties of the code *)

(** ** Service: the set of destinations *)

Section service_membership.
Implicit Types (d p : ptr) (svc : Service.t) (s : list ptr).

Lemma set_erase_absent d s : d ∉ s → set.erase d s = s.
Proof.
  induction s as [|y s IH]; [done|]. simpl. intros Hd.
  apply not_elem_of_cons in Hd as [Hne Hd].
  destruct (N.eqb_spec d y); [done|]. by rewrite IH.
Qed.

Lemma set_erase_elem_of p d s : set_ok s → p ∈ set.erase d s ↔ p ≠ d ∧ p ∈ s.
Proof.
  induction 1 as [|y s Hs IH Hall]; simpl.
  - split; [by intros ?%elem_of_nil|by intros [_ ?%elem_of_nil]].
  - pose proof (proj1 (Forall_forall _ _) Hall) as Hlt.
    destruct (N.eqb_spec d y) as [->|Hne].
    + rewrite elem_of_cons. split.
      * intros Hp. split; [|by right]. intros ->. specialize (Hlt y Hp). lia.
      * intros [Hpy [?|Hp]]; done.
    + rewrite !elem_of_cons, IH. split.
      * intros [->|[? ?]]; [split; [congruence|by left]|split; [done|by right]].
      * intros [? [->|?]]; [by left|by right].
Qed.

Lemma set_insert_present d s : set_ok s → d ∈ s → set.insert d s = s.
Proof.
  induction 1 as [|y s Hs IH Hall]; simpl; intros Hd.
  - by apply elem_of_nil in Hd.
  - pose proof (proj1 (Forall_forall _ _) Hall) as Hlt.
    apply elem_of_cons in Hd as [->|Hd].
    + by rewrite N.ltb_irrefl, N.eqb_refl.
    + specialize (Hlt d Hd).
      destruct (N.ltb_spec d y); [lia|]. destruct (N.eqb_spec d y); [lia|].
      by rewrite IH.
Qed.

Lemma set_erase_insert d s : set_ok s → d ∉ s → set.erase d (set.insert d s) = s.
Proof.
  induction 1 as [|y s Hs IH Hall]; simpl; intros Hd.
  - by rewrite N.eqb_refl.
  - apply not_elem_of_cons in Hd as [Hne Hd].
    destruct (N.ltb_spec d y); simpl.
    + by rewrite N.eqb_refl.
    + destruct (N.eqb_spec d y); [done|]. simpl.
      destruct (N.eqb_spec d y); [done|]. by rewrite IH.
Qed.

(** X1.  [addDestination] has set semantics whatever the list it starts
    from: afterwards the destinations are the added one and those there
    before, and adding the same pointer a second time changes nothing.
    The name of the service is not touched. *)
Theorem addDestination_set_semantics d svc :
  (∀ p, p ∈ Service.destinations (Service.addDestination d svc)
        ↔ p = d ∨ p ∈ Service.destinations svc)
  ∧ Service.addDestination d (Service.addDestination d svc)
    = Service.addDestination d svc
  ∧ Service.name (Service.addDestination d svc) = Service.name svc.
Proof.
  split; [|split].
  - intros p. apply set_insert_elem_of.
  - unfold Service.addDestination. simpl. by rewrite set_insert_twice.
  - done.
Qed.

(** X2.  Both [addDestination] and [removeDestination] keep the
    enumeration of the set strictly ascending by address, so the
    enumeration never lists a destination twice. *)
Theorem membership_changes_keep_order svc (c : membership_change) :
  set_ok (Service.destinations svc) →
  set_ok (Service.destinations (change_membership svc c))
  ∧ NoDup (Service.destinations (change_membership svc c)).
Proof.
  intros Hok.
  assert (Hok' : set_ok (Service.destinations (change_membership svc c))).
  { destruct c as [d|d]; simpl.
    - by apply set_insert_sorted.
    - by apply set_erase_sorted. }
  split; [done|]. clear Hok. unfold set_ok in Hok'.
  induction Hok' as [|y s Hs IH Hall]; constructor; [|done].
  intros Hy. pose proof (proj1 (Forall_forall _ _) Hall y Hy). lia.
Qed.

(** X3.  [removeDestination] on a well-formed set removes exactly the
    given pointer: the others stay, the pointer itself is gone; when it
    was not a member the service is unchanged. *)
Theorem removeDestination_set_semantics d svc :
  set_ok (Service.destinations svc) →
  (∀ p, p ∈ Service.destinations (Service.removeDestination d svc)
        ↔ p ≠ d ∧ p ∈ Service.destinations svc)
  ∧ (d ∉ Service.destinations svc → Service.removeDestination d svc = svc).
Proof.
  intros Hok. split.
  - intros p. by apply set_erase_elem_of.
  - intros Hd. unfold Service.removeDestination.
    rewrite set_erase_absent by done. by destruct svc.
Qed.

(** X4.  Adding a destination that is not a member and removing it again
    gives the service back; adding one that is already a member leaves
    the service as it is. *)
Theorem add_then_remove svc d :
  set_ok (Service.destinations svc) →
  (d ∉ Service.destinations svc →
   Service.removeDestination d (Service.addDestination d svc) = svc)
  ∧ (d ∈ Service.destinations svc → Service.addDestination d svc = svc).
Proof.
  intros Hok. split; intros Hd.
  - unfold Service.removeDestination, Service.addDestination. simpl.
    rewrite set_erase_insert by done. by destruct svc.
  - unfold Service.addDestination. rewrite set_insert_present by done.
    by destruct svc.
Qed.
End service_membership.

Lemma main_service_ok : set_ok (Service.destinations scenario.main_service).
Proof. repeat constructor. Qed.

Lemma membership_changes_keep_order_witness :
  set_ok (Service.destinations scenario.main_service)
  ∧ (set_ok (Service.destinations
               (change_membership scenario.main_service (AddDestination 8200%N)))
     ∧ NoDup (Service.destinations
                (change_membership scenario.main_service (AddDestination 8200%N)))).
Proof.
  split; [exact main_service_ok|].
  apply (membership_changes_keep_order scenario.main_service (AddDestination 8200%N)).
  exact main_service_ok.
Defined.

Lemma removeDestination_set_semantics_witness :
  set_ok (Service.destinations scenario.main_service)
  ∧ ((∀ p, p ∈ Service.destinations
               (Service.removeDestination scenario.dest2 scenario.main_service)
           ↔ p ≠ scenario.dest2 ∧ p ∈ Service.destinations scenario.main_service)
     ∧ (scenario.dest2 ∉ Service.destinations scenario.main_service →
        Service.removeDestination scenario.dest2 scenario.main_service
        = scenario.main_service)).
Proof.
  split; [exact main_service_ok|].
  apply (removeDestination_set_semantics scenario.dest2 scenario.main_service).
  exact main_service_ok.
Defined.

Lemma add_then_remove_witness :
  set_ok (Service.destinations scenario.main_service)
  ∧ ((8200%N ∉ Service.destinations scenario.main_service →
      Service.removeDestination 8200 (Service.addDestination 8200 scenario.main_service)
      = scenario.main_service)
     ∧ (8200%N ∈ Service.destinations scenario.main_service →
        Service.addDestination 8200 scenario.main_service = scenario.main_service)).
Proof.
  split; [exact main_service_ok|].
  apply (add_then_remove scenario.main_service 8200%N).
  exact main_service_ok.
Defined.

(** ** LoadBalancer: registration and resolution *)

Section registration.
Context `{Hash string}.
Implicit Types (this : LoadBalancer.t) (w : World) (request : Request.t) (k : string).

Lemma registerService_insert k service this :
  LoadBalancer.registerService k service this
  = LoadBalancer.mk (<[k := service]> (LoadBalancer.serviceMap this)).
Proof.
  unfold LoadBalancer.registerService.
  destruct (LoadBalancer.serviceMap this !! k) as [old|] eqn:Hk.
  - by rewrite (subscript_present _ _ _ _ Hk).
  - rewrite (subscript_absent _ _ _ Hk). by rewrite insert_insert_eq.
Qed.

Lemma serviceMap_of_registerService k service (lb : Balancer) :
  serviceMap_of (registerService k service lb) = <[k := service]> (serviceMap_of lb).
Proof. destruct lb; simpl; by rewrite registerService_insert. Qed.

(** X5.  [registerService] binds the request type to the service for all
    three balancers: the type then resolves to that service, every other
    type resolves as before, and registering again for the same type
    replaces the earlier binding (the last registration wins). *)
Theorem registerService_binding k service (lb : Balancer) :
  serviceMap_of (registerService k service lb) !! k = Some service
  ∧ (∀ k', k' ≠ k →
           serviceMap_of (registerService k service lb) !! k' = serviceMap_of lb !! k')
  ∧ (∀ service', registerService k service (registerService k service' lb)
                 = registerService k service lb).
Proof.
  split; [|split].
  - rewrite serviceMap_of_registerService. apply lookup_insert_eq.
  - intros k' Hne. rewrite serviceMap_of_registerService. by apply lookup_insert_ne.
  - intros service'. destruct lb as [this|this|this]; simpl;
      rewrite !registerService_insert; simpl; by rewrite insert_insert_eq.
Qed.

(** X6.  [getDestinations] resolves and only reads.  For a request type
    without registration it throws "No service found for the request
    type."; for a type registered to a live service it returns that
    service's set of destinations; in both cases the balancer and the
    store are left as they were (the subscript on the service map never
    inserts, since it runs only after [find] succeeded).  Conversely a
    throw happens only for an unregistered type, a return only with the
    set of the registered service, and the call is undefined only for a
    registered service pointer that is not live. *)
Theorem getDestinations_read_only request this w :
  (LoadBalancer.serviceMap this !! Request.requestType request = None →
   LoadBalancer.getDestinations request (this, w)
   = Throw UnknownRequestTypeError (this, w))
  ∧ (∀ service svc,
       LoadBalancer.serviceMap this !! Request.requestType request = Some service →
       service_at w !! service = Some svc →
       LoadBalancer.getDestinations request (this, w)
       = Ok (Service.destinations svc) (this, w))
  ∧ (∀ l s', LoadBalancer.getDestinations request (this, w) = Ok l s' →
             s' = (this, w)
             ∧ candidates (LoadBalancer.serviceMap this) w (Request.requestType request)
               = Some l)
  ∧ (∀ e s', LoadBalancer.getDestinations request (this, w) = Throw e s' →
             s' = (this, w) ∧ e = UnknownRequestTypeError
             ∧ LoadBalancer.serviceMap this !! Request.requestType request = None)
  ∧ (LoadBalancer.getDestinations request (this, w) = Undefined →
     ∃ service,
       LoadBalancer.serviceMap this !! Request.requestType request = Some service
       ∧ service_at w !! service = None).
Proof.
  split; [by apply getDestinations_unknown|].
  split; [by apply getDestinations_found|].
  destruct (getDestinations_cases request this w)
    as [[Hs ->]|[(service & Hs & Hsvc & ->)|(service & svc & Hs & Hsvc & ->)]].
  - split; [done|]. split; [|done]. by intros e s' [= <- <-].
  - split; [done|]. split; [done|]. intros _. by exists service.
  - split; [|done]. intros l s' [= <- <-]. split; [done|].
    apply candidates_Some. by exists service, svc.
Qed.
End registration.

(** ** Least connection: what the selection depends on *)

Section least_connection_more.
Implicit Types (this : LoadBalancer.t) (w : World) (request : Request.t).

Lemma min_element_loop_Ok_inv this w rest smallest d s' :
  min_element_loop LeastConnectionLoadBalancer.less_loaded smallest rest (this, w)
  = Ok d s' →
  s' = (this, w) ∧ d ∈ smallest :: rest.
Proof.
  revert smallest. induction rest as [|x rest IH]; intros smallest.
  - intros [= <- <-]. split; [done|]. by left.
  - cbn [min_element_loop].
    destruct (less_loaded_no_throw this w x smallest) as [[r Hr]|Hu].
    + rewrite (bind_Ok _ _ _ _ _ Hr). intros [-> Hd]%IH. split; [done|].
      destruct r; apply elem_of_cons in Hd as [->|Hd]; rewrite !elem_of_cons; auto.
    + by rewrite (bind_Undefined _ _ _ Hu).
Qed.

(** X7.  The least-connection balancer only reads: when it returns, the
    balancer and the store (loads included) are unchanged and the
    destination returned is a member of the candidate set the request
    type resolves to. *)
Theorem least_connection_read_only request this w d s' :
  LeastConnectionLoadBalancer.balanceLoad request (this, w) = Ok d s' →
  s' = (this, w)
  ∧ ∃ l, candidates (LoadBalancer.serviceMap this) w (Request.requestType request)
         = Some l
         ∧ d ∈ l.
Proof.
  unfold LeastConnectionLoadBalancer.balanceLoad.
  destruct (getDestinations_cases request this w)
    as [[Hs Hrun]|[(service & Hs & Hsvc & Hrun)|(service & svc & Hs & Hsvc & Hrun)]].
  - by rewrite (bind_Throw _ _ _ _ _ Hrun).
  - by rewrite (bind_Undefined _ _ _ Hrun).
  - rewrite (bind_Ok _ _ _ _ _ Hrun).
    destruct (Service.destinations svc) as [|x rest] eqn:Hl; [done|].
    cbn [set.empty min_element]. unfold bind at 1. unfold bind at 1.
    destruct (min_element_loop LeastConnectionLoadBalancer.less_loaded x rest (this, w))
      as [d0 s0| |] eqn:Hloop; [|done|done].
    apply min_element_loop_Ok_inv in Hloop as [-> Hd0].
    intros [= <- <-]. split; [done|]. exists (x :: rest). split; [|done].
    apply candidates_Some. by exists service, svc.
Qed.

Lemma first_least_loaded_unique w1 w2 (l : list ptr) i1 d1 i2 d2 :
  (∀ p, p ∈ l → load_at w1 p = load_at w2 p) →
  first_least_loaded w1 l i1 d1 → first_least_loaded w2 l i2 d2 →
  d1 = d2.
Proof.
  intros Hsame (Hi1 & n1 & Hn1 & Hall1) (Hi2 & n2 & Hn2 & Hall2).
  assert (Hd1 : d1 ∈ l) by (apply list_elem_of_lookup; eauto).
  assert (Hd2 : d2 ∈ l) by (apply list_elem_of_lookup; eauto).
  destruct (Hall1 i2 d2 Hi2) as (m2 & Hm2 & Hle1 & Hlt1).
  destruct (Hall2 i1 d1 Hi1) as (m1 & Hm1 & Hle2 & Hlt2).
  rewrite (Hsame d2 Hd2), Hn2 in Hm2. injection Hm2 as <-.
  rewrite <- (Hsame d1 Hd1), Hn1 in Hm1. injection Hm1 as <-.
  assert (i1 = i2) as -> by (destruct (Nat.lt_total i1 i2) as [?|[?|?]]; [|done|]; lia).
  congruence.
Qed.

(** X8.  The least-connection choice is a function of the loads of the
    candidates alone: two calls over the same candidate set whose members
    carry the same loads return the same destination, whatever the
    thresholds and addresses of the destinations, the request and the
    rest of the store are.  In particular the thresholds play no part. *)
Theorem least_connection_loads_only request1 request2 this1 this2 w1 w2 (l : list ptr) :
  candidates (LoadBalancer.serviceMap this1) w1 (Request.requestType request1) = Some l →
  candidates (LoadBalancer.serviceMap this2) w2 (Request.requestType request2) = Some l →
  l ≠ [] →
  live w1 l →
  live w2 l →
  (∀ p, p ∈ l → load_at w1 p = load_at w2 p) →
  ∃ d,
    LeastConnectionLoadBalancer.balanceLoad request1 (this1, w1) = Ok d (this1, w1)
    ∧ LeastConnectionLoadBalancer.balanceLoad request2 (this2, w2) = Ok d (this2, w2).
Proof.
  intros (s1 & svc1 & Hs1 & Hsvc1 & Hl1)%candidates_Some
         (s2 & svc2 & Hs2 & Hsvc2 & Hl2)%candidates_Some Hne Hlive1 Hlive2 Hsame.
  destruct (least_connection_selects request1 this1 w1 s1 svc1 Hs1 Hsvc1)
    as (i1 & d1 & Hrun1 & Hmin1); [by rewrite Hl1..|].
  destruct (least_connection_selects request2 this2 w2 s2 svc2 Hs2 Hsvc2)
    as (i2 & d2 & Hrun2 & Hmin2); [by rewrite Hl2..|].
  rewrite Hl1 in Hmin1. rewrite Hl2 in Hmin2.
  rewrite (first_least_loaded_unique w1 w2 l i1 d1 i2 d2 Hsame Hmin1 Hmin2) in Hrun1.
  by exists d2.
Qed.
End least_connection_more.

Lemma least_connection_read_only_witness :
  let request := scenario.request "3" in
  let this := LoadBalancer.registerService "http" scenario.service (LoadBalancer.mk ∅) in
  let w := scenario.full_world in
  LeastConnectionLoadBalancer.balanceLoad request (this, w) = Ok scenario.dest1 (this, w)
  ∧ ((this, w) = (this, w)
     ∧ ∃ l, candidates (LoadBalancer.serviceMap this) w (Request.requestType request)
            = Some l
            ∧ scenario.dest1 ∈ l).
Proof.
  cbv zeta. split; [vm_compute; reflexivity|].
  apply (least_connection_read_only (scenario.request "3")
           (LoadBalancer.registerService "http" scenario.service (LoadBalancer.mk ∅))
           scenario.full_world scenario.dest1).
  vm_compute. reflexivity.
Defined.

Lemma least_connection_loads_only_witness :
  let request1 := scenario.request "1" in
  let request2 := scenario.request "2" in
  let this := LoadBalancer.registerService "http" scenario.service (LoadBalancer.mk ∅) in
  let w1 := scenario.main_world in
  let w2 :=
    mkWorld (<[scenario.dest1 := Destination.mk "a" 0 1]>
               (<[scenario.dest2 := Destination.mk "b" 0 0]>
                  (<[scenario.dest3 := Destination.mk "c" 0 (-4)]> ∅)))
            (service_at scenario.main_world) "log" in
  let l := [scenario.dest1; scenario.dest2; scenario.dest3] in
  candidates (LoadBalancer.serviceMap this) w1 (Request.requestType request1) = Some l
  ∧ candidates (LoadBalancer.serviceMap this) w2 (Request.requestType request2) = Some l
  ∧ l ≠ []
  ∧ live w1 l
  ∧ live w2 l
  ∧ (∀ p, p ∈ l → load_at w1 p = load_at w2 p)
  ∧ ∃ d,
      LeastConnectionLoadBalancer.balanceLoad request1 (this, w1) = Ok d (this, w1)
      ∧ LeastConnectionLoadBalancer.balanceLoad request2 (this, w2) = Ok d (this, w2).
Proof.
  cbv zeta.
  set (w2 := mkWorld _ _ _).
  assert (Hlive1 : live scenario.main_world
                     [scenario.dest1; scenario.dest2; scenario.dest3]).
  { apply live_Forall. repeat constructor; vm_compute; eauto. }
  assert (Hlive2 : live w2 [scenario.dest1; scenario.dest2; scenario.dest3]).
  { apply live_Forall. repeat constructor; vm_compute; eauto. }
  assert (Hsame : ∀ p, p ∈ [scenario.dest1; scenario.dest2; scenario.dest3] →
                       load_at scenario.main_world p = load_at w2 p).
  { intros p Hp. repeat (apply elem_of_cons in Hp as [->|Hp]; [reflexivity|]).
    by apply elem_of_nil in Hp. }
  split; [reflexivity|]. split; [reflexivity|]. split; [discriminate|].
  split; [exact Hlive1|]. split; [exact Hlive2|]. split; [exact Hsame|].
  apply (least_connection_loads_only (scenario.request "1") (scenario.request "2")
           (LoadBalancer.registerService "http" scenario.service (LoadBalancer.mk ∅))
           (LoadBalancer.registerService "http" scenario.service (LoadBalancer.mk ∅))
           scenario.main_world w2
           [scenario.dest1; scenario.dest2; scenario.dest3]).
  - reflexivity.
  - reflexivity.
  - discriminate.
  - exact Hlive1.
  - exact Hlive2.
  - exact Hsame.
Defined.

(** ** Round robin: what a call does to the queues *)

Section round_robin_more.
Context `{Hash string}.
Implicit Types (this : RoundRobinLoadBalancer.t) (w : World) (request : Request.t).
Implicit Types (q : list ptr) (k : string).

(** A call that returns has served the front of the queue in force and
    stored the rotated queue. *)
Lemma round_robin_Ok_inv request this w d s' :
  RoundRobinLoadBalancer.balanceLoad request (this, w) = Ok d s' →
  ∃ q',
    s' = (with_queue (Request.requestType request) (q' ++ [d]) this, w)
    ∧ (RoundRobinLoadBalancer.destinationQueues this !! Request.requestType request
       = Some (d :: q')
       ∨ (RoundRobinLoadBalancer.destinationQueues this !! Request.requestType request
          = None
          ∧ candidates (LoadBalancer.serviceMap (RoundRobinLoadBalancer.base this)) w
                       (Request.requestType request) = Some (d :: q'))).
Proof.
  set (m := LoadBalancer.serviceMap (RoundRobinLoadBalancer.base this)).
  destruct (m !! Request.requestType request) as [service|] eqn:Hs.
  - destruct (service_at w !! service) as [svc|] eqn:Hsvc.
    + destruct (Service.destinations svc) as [|x rest] eqn:Hl.
      * by rewrite (round_robin_no_candidates request this w service svc Hs Hsvc Hl).
      * assert (Hne : Service.destinations svc ≠ []) by by rewrite Hl.
        destruct (RoundRobinLoadBalancer.destinationQueues this
                    !! Request.requestType request) as [[|y q']|] eqn:Hq.
        -- by rewrite (round_robin_broken_queue request this w service svc Hs Hsvc Hne Hq).
        -- rewrite (round_robin_step request this w service svc y q' Hs Hsvc Hne Hq).
           intros [= <- <-]. exists q'. split; [done|]. by left.
        -- rewrite (round_robin_first_use request this w service svc x rest
                      Hs Hsvc Hl Hq).
           intros [= <- <-]. exists rest. split; [done|]. right. split; [done|].
           apply candidates_Some. by exists service, svc.
    + by rewrite (round_robin_dangling request this w service Hs Hsvc).
  - by rewrite (round_robin_unknown request this w Hs).
Qed.

Lemma round_robin_Undefined_inv request this w :
  RoundRobinLoadBalancer.balanceLoad request (this, w) = Undefined →
  (∃ service,
     LoadBalancer.serviceMap (RoundRobinLoadBalancer.base this)
       !! Request.requestType request = Some service
     ∧ service_at w !! service = None)
  ∨ RoundRobinLoadBalancer.destinationQueues this !! Request.requestType request
    = Some [].
Proof.
  set (m := LoadBalancer.serviceMap (RoundRobinLoadBalancer.base this)).
  destruct (m !! Request.requestType request) as [service|] eqn:Hs.
  - destruct (service_at w !! service) as [svc|] eqn:Hsvc; [|left; eauto].
    destruct (Service.destinations svc) as [|x rest] eqn:Hl.
    + by rewrite (round_robin_no_candidates request this w service svc Hs Hsvc Hl).
    + assert (Hne : Service.destinations svc ≠ []) by by rewrite Hl.
      destruct (RoundRobinLoadBalancer.destinationQueues this
                  !! Request.requestType request) as [[|y q']|] eqn:Hq.
      * by right.
      * by rewrite (round_robin_step request this w service svc y q' Hs Hsvc Hne Hq).
      * by rewrite (round_robin_first_use request this w service svc x rest
                      Hs Hsvc Hl Hq).
  - by rewrite (round_robin_unknown request this w Hs).
Qed.

(** X9.  A round-robin call that returns changes one thing only: the
    queue of the request's type, which now ends with the destination
    returned.  The queues of the other request types, the service map and
    the whole store (no load, no set of any service) are as before. *)
Theorem round_robin_frame request this w d this' w' :
  RoundRobinLoadBalancer.balanceLoad request (this, w) = Ok d (this', w') →
  w' = w
  ∧ RoundRobinLoadBalancer.base this' = RoundRobinLoadBalancer.base this
  ∧ (∀ k, k ≠ Request.requestType request →
          RoundRobinLoadBalancer.destinationQueues this' !! k
          = RoundRobinLoadBalancer.destinationQueues this !! k)
  ∧ ∃ q', RoundRobinLoadBalancer.destinationQueues this'
            !! Request.requestType request = Some (q' ++ [d]).
Proof.
  intros (q' & [= -> ->] & _)%round_robin_Ok_inv.
  split; [done|]. split; [done|]. split.
  - intros k Hk. unfold with_queue. simpl. by apply lookup_insert_ne.
  - exists q'. apply with_queue_lookup.
Qed.

(** X10.  The queues never run empty.  If no queue of the balancer is
    empty before a call (as for a new balancer, which has none), none is
    empty after it; and such a call is undefined only through a dangling
    service pointer, never through [front()] or [pop()] on an empty
    queue. *)
Theorem round_robin_queues_stay_nonempty request this w :
  queues_ok this →
  (∀ d this' w',
     RoundRobinLoadBalancer.balanceLoad request (this, w) = Ok d (this', w') →
     queues_ok this')
  ∧ (RoundRobinLoadBalancer.balanceLoad request (this, w) = Undefined →
     ∃ service,
       LoadBalancer.serviceMap (RoundRobinLoadBalancer.base this)
         !! Request.requestType request = Some service
       ∧ service_at w !! service = None).
Proof.
  intros Hok. split.
  - intros d this' w' (q' & [= -> ->] & _)%round_robin_Ok_inv k q.
    unfold with_queue. simpl.
    destruct (decide (Request.requestType request = k)) as [<-|Hne].
    + rewrite lookup_insert_eq. intros [= <-]. by destruct q'.
    + rewrite lookup_insert_ne by done. apply Hok.
  - intros [Hdangling|Hempty]%round_robin_Undefined_inv; [done|].
    by destruct (Hok _ _ Hempty).
Qed.

(** With the queue [a ++ b] stored, [length a] calls return [a] and leave
    the queue [b ++ a]. *)
Lemma round_robin_serves_prefix k w (l : list ptr) (a : list ptr) :
  ∀ requests this (b : list ptr),
    Forall (λ request, Request.requestType request = k) requests →
    length requests = length a →
    candidates (LoadBalancer.serviceMap (RoundRobinLoadBalancer.base this)) w k = Some l →
    l ≠ [] →
    RoundRobinLoadBalancer.destinationQueues this !! k = Some (a ++ b) →
    balanceLoads requests (RoundRobin this, w)
    = Ok a (RoundRobin (with_queue k (b ++ a) this), w).
Proof.
  induction a as [|x a IH]; intros requests this b Hk Hlen Hc Hne Hq.
  - destruct requests; [|done]. cbn [balanceLoads]. unfold ret.
    rewrite app_nil_r. rewrite app_nil_l in Hq.
    unfold with_queue. rewrite (insert_id _ _ _ Hq). by destruct this.
  - destruct requests as [|request requests]; [done|].
    apply Forall_cons in Hk as [Hk1 Hk]. injection Hlen as Hlen.
    assert (Hstep : balanceLoad request (RoundRobin this, w)
                    = Ok x (RoundRobin (with_queue k ((a ++ b) ++ [x]) this), w)).
    { rewrite <- Hk1. apply (round_robin_serves request this w l x (a ++ b)).
      - by rewrite Hk1.
      - done.
      - left. by rewrite Hk1. }
    assert (Hq' : RoundRobinLoadBalancer.destinationQueues
                    (with_queue k ((a ++ b) ++ [x]) this) !! k
                  = Some (a ++ b ++ [x])).
    { rewrite with_queue_lookup. by rewrite <- (assoc_L (++)). }
    cbn [balanceLoads]. rewrite (bind_Ok _ _ _ _ _ Hstep).
    rewrite (bind_Ok _ _ _ _ _
               (IH requests (with_queue k ((a ++ b) ++ [x]) this) (b ++ [x])
                   Hk Hlen Hc Hne Hq')).
    unfold ret. rewrite with_queue_twice. by rewrite <- (assoc_L (++)).
Qed.

(** X11.  A full turn of the rotation: as many successive calls as the
    rotation sequence [q] is long return exactly [q], in order, and leave
    [q] as the stored queue, so the next turn is the same again. *)
Theorem round_robin_full_turn k w (l : list ptr) requests this q :
  Forall (λ request, Request.requestType request = k) requests →
  length requests = length q →
  candidates (LoadBalancer.serviceMap (RoundRobinLoadBalancer.base this)) w k = Some l →
  l ≠ [] →
  q ≠ [] →
  RoundRobinLoadBalancer.destinationQueues this !! k = Some q
  ∨ (RoundRobinLoadBalancer.destinationQueues this !! k = None ∧ l = q) →
  balanceLoads requests (RoundRobin this, w)
  = Ok q (RoundRobin (with_queue k q this), w).
Proof.
  intros Hk Hlen Hc Hne Hq [Hstored|[Hfirst ->]].
  - rewrite (round_robin_serves_prefix k w l q requests this [] Hk Hlen Hc Hne).
    + done.
    + by rewrite app_nil_r.
  - destruct q as [|x q']; [done|].
    destruct requests as [|request requests]; [done|].
    apply Forall_cons in Hk as [Hk1 Hk]. injection Hlen as Hlen.
    assert (Hstep : balanceLoad request (RoundRobin this, w)
                    = Ok x (RoundRobin (with_queue k (q' ++ [x]) this), w)).
    { rewrite <- Hk1. apply (round_robin_serves request this w (x :: q') x q').
      - by rewrite Hk1.
      - done.
      - right. by rewrite Hk1. }
    cbn [balanceLoads]. rewrite (bind_Ok _ _ _ _ _ Hstep).
    rewrite (bind_Ok _ _ _ _ _
               (round_robin_serves_prefix k w (x :: q') q' requests
                  (with_queue k (q' ++ [x]) this) [x] Hk Hlen Hc Hne
                  (with_queue_lookup _ _ _))).
    unfold ret. by rewrite with_queue_twice.
Qed.

(** X12.  Registering another service for a request type whose queue
    already exists does not reset the rotation: the next call still
    returns the front of the old queue, a destination of the service
    registered before, provided the new service has at least one
    destination. *)
Theorem round_robin_ignores_reregistration request this w service svc x (q' : list ptr) :
  RoundRobinLoadBalancer.destinationQueues this !! Request.requestType request
    = Some (x :: q') →
  service_at w !! service = Some svc →
  Service.destinations svc ≠ [] →
  balanceLoad request
    (registerService (Request.requestType request) service (RoundRobin this), w)
  = Ok x (registerService (Request.requestType request) service
            (RoundRobin (with_queue (Request.requestType request) (q' ++ [x]) this)),
          w).
Proof.
  intros Hq Hsvc Hne. cbn [registerService]. rewrite balanceLoad_RoundRobin.
  rewrite (round_robin_step request _ w service svc x q'); [done| |done..].
  simpl. rewrite registerService_insert. simpl. apply lookup_insert_eq.
Qed.
End round_robin_more.

Lemma round_robin_frame_witness :
  let request := scenario.request "1" in
  let this' := with_queue "http" [scenario.dest2; scenario.dest3; scenario.dest1]
                          scenario.roundRobin in
  RoundRobinLoadBalancer.balanceLoad request (scenario.roundRobin, scenario.main_world)
  = Ok scenario.dest1 (this', scenario.main_world)
  ∧ (scenario.main_world = scenario.main_world
     ∧ RoundRobinLoadBalancer.base this' = RoundRobinLoadBalancer.base scenario.roundRobin
     ∧ (∀ k, k ≠ Request.requestType request →
             RoundRobinLoadBalancer.destinationQueues this' !! k
             = RoundRobinLoadBalancer.destinationQueues scenario.roundRobin !! k)
     ∧ ∃ q', RoundRobinLoadBalancer.destinationQueues this'
               !! Request.requestType request = Some (q' ++ [scenario.dest1])).
Proof.
  cbv zeta. split; [vm_compute; reflexivity|].
  apply (round_robin_frame (scenario.request "1") scenario.roundRobin
           scenario.main_world scenario.dest1).
  vm_compute. reflexivity.
Defined.

Lemma round_robin_queues_stay_nonempty_witness :
  let request := scenario.request "1" in
  queues_ok scenario.roundRobin
  ∧ ((∀ d this' w',
        RoundRobinLoadBalancer.balanceLoad request
          (scenario.roundRobin, scenario.main_world) = Ok d (this', w') →
        queues_ok this')
     ∧ (RoundRobinLoadBalancer.balanceLoad request
          (scenario.roundRobin, scenario.main_world) = Undefined →
        ∃ service,
          LoadBalancer.serviceMap (RoundRobinLoadBalancer.base scenario.roundRobin)
            !! Request.requestType request = Some service
          ∧ service_at scenario.main_world !! service = None)).
Proof.
  cbv zeta.
  assert (Hok : queues_ok scenario.roundRobin) by (intros k q Hq; done).
  split; [exact Hok|].
  apply (round_robin_queues_stay_nonempty (scenario.request "1") scenario.roundRobin
           scenario.main_world).
  exact Hok.
Defined.

Lemma round_robin_full_turn_witness :
  let requests := scenario.request <$> ["1"; "2"; "3"] in
  let q := [scenario.dest1; scenario.dest2; scenario.dest3] in
  Forall (λ request, Request.requestType request = "http") requests
  ∧ length requests = length q
  ∧ candidates (LoadBalancer.serviceMap (RoundRobinLoadBalancer.base scenario.roundRobin))
               scenario.main_world "http" = Some q
  ∧ q ≠ []
  ∧ q ≠ []
  ∧ (RoundRobinLoadBalancer.destinationQueues scenario.roundRobin !! "http" = Some q
     ∨ (RoundRobinLoadBalancer.destinationQueues scenario.roundRobin !! "http" = None
        ∧ q = q))
  ∧ @balanceLoads scenario.length_hash requests
      (RoundRobin scenario.roundRobin, scenario.main_world)
    = Ok q (RoundRobin (with_queue "http" q scenario.roundRobin), scenario.main_world).
Proof.
  cbv zeta.
  assert (Hk : Forall (λ request, Request.requestType request = "http")
                 (scenario.request <$> ["1"; "2"; "3"])).
  { repeat constructor. }
  split; [exact Hk|]. split; [reflexivity|]. split; [reflexivity|].
  split; [discriminate|]. split; [discriminate|].
  split; [right; split; reflexivity|].
  apply (@round_robin_full_turn scenario.length_hash "http" scenario.main_world
           [scenario.dest1; scenario.dest2; scenario.dest3]
           (scenario.request <$> ["1"; "2"; "3"]) scenario.roundRobin
           [scenario.dest1; scenario.dest2; scenario.dest3]).
  - exact Hk.
  - reflexivity.
  - reflexivity.
  - discriminate.
  - discriminate.
  - right. split; reflexivity.
Defined.

Lemma round_robin_ignores_reregistration_witness :
  let request := scenario.request "9" in
  let this := with_queue "http" [scenario.dest2; scenario.dest3; scenario.dest1]
                         scenario.roundRobin in
  let other := Service.mk "other" [scenario.dest3] in
  let w := with_service 5000%N other scenario.main_world in
  RoundRobinLoadBalancer.destinationQueues this !! Request.requestType request
    = Some [scenario.dest2; scenario.dest3; scenario.dest1]
  ∧ service_at w !! 5000%N = Some other
  ∧ Service.destinations other ≠ []
  ∧ @balanceLoad scenario.length_hash request
      (registerService (Request.requestType request) 5000%N (RoundRobin this), w)
    = Ok scenario.dest2
         (registerService (Request.requestType request) 5000%N
            (RoundRobin
               (with_queue (Request.requestType request)
                  ([scenario.dest3; scenario.dest1] ++ [scenario.dest2]) this)),
          w).
Proof.
  cbv zeta. split; [reflexivity|]. split; [reflexivity|]. split; [discriminate|].
  apply (@round_robin_ignores_reregistration scenario.length_hash
           (scenario.request "9")
           (with_queue "http" [scenario.dest2; scenario.dest3; scenario.dest1]
              scenario.roundRobin)
           (with_service 5000%N (Service.mk "other" [scenario.dest3])
              scenario.main_world)
           5000%N (Service.mk "other" [scenario.dest3])
           scenario.dest2 [scenario.dest3; scenario.dest1]).
  - reflexivity.
  - reflexivity.
  - discriminate.
Defined.

(** ** Destination: how admissions and completions compose *)

Section destination_more.
Import Destination.
#[local] Open Scope Z_scope.
Implicit Types (this : Destination.t) (cout : ostream) (request : Request.t).


(** [n] admissions in a row on a destination with [free] slots left. *)
Lemma accepts_fill request (n : nat) :
  ∀ this cout (free : nat),
    load_ok this →
    threshold this - requestsBeingServed this = Z.of_nat free →
    ∃ this' cout',
      calls (replicate n (AcceptRequest request)) (this, cout)
      = Ok (replicate (n `min` free) true ++ replicate (n - free) false) (this', cout')
      ∧ requestsBeingServed this' = requestsBeingServed this + Z.of_nat (n `min` free)
      ∧ threshold this' = threshold this.
Proof.
  induction n as [|n IH]; intros this cout free Hok Hfree.
  - exists this, cout. split; [done|]. simpl. split; [lia|done].
  - pose proof (load_ok_range _ Hok) as Hl. destruct Hok as [Hb Ht].
    cbn [replicate calls]. destruct free as [|free].
    + destruct (acceptRequest_rejects request this cout) as [line Hrej]; [lia|].
      destruct (IH this (cout +:+ line) 0%nat) as (this' & cout' & Hrun & Hload & Hthr);
        [done|done|].
      exists this', cout'. rewrite (bind_Ok _ _ _ _ _ Hrej), (bind_Ok _ _ _ _ _ Hrun).
      rewrite Nat.min_0_r in *. rewrite Nat.sub_0_r in *. simpl in *.
      split; [done|]. split; [lia|done].
    + destruct (acceptRequest_accepts request this cout Hl Ht) as [line Hacc]; [lia|].
      set (this1 := set_requestsBeingServed (requestsBeingServed this + 1) this) in *.
      destruct (IH this1 (cout +:+ line) free) as (this' & cout' & Hrun & Hload & Hthr).
      { unfold load_ok, this1. simpl. split; [lia|done]. }
      { unfold this1. simpl. lia. }
      exists this', cout'. rewrite (bind_Ok _ _ _ _ _ Hacc), (bind_Ok _ _ _ _ _ Hrun).
      split; [done|]. unfold this1 in *. simpl in *. split; [lia|done].
Qed.

(** X14.  Admission saturates at the threshold: on a new destination
    with capacity [c ≥ 0], [n] admissions in a row without a completion
    grant the first [min n c] and refuse all the later ones, and the load
    ends at [min n c]. *)
Theorem accepts_saturate ip capacity request (n : nat) cout :
  0 ≤ capacity → int_range capacity →
  ∃ this' cout',
    calls (replicate n (AcceptRequest request)) (Destination ip capacity, cout)
    = Ok (replicate (n `min` Z.to_nat capacity) true
          ++ replicate (n - Z.to_nat capacity) false)
         (this', cout')
    ∧ requestsBeingServed this' = Z.of_nat (n `min` Z.to_nat capacity).
Proof.
  intros Hc Hr.
  destruct (accepts_fill request n (Destination ip capacity) cout (Z.to_nat capacity))
    as (this' & cout' & Hrun & Hload & _).
  - unfold load_ok. simpl. split; [lia|done].
  - simpl. lia.
  - exists this', cout'. split; [done|]. simpl in Hload. lia.
Qed.
End destination_more.


Lemma accepts_saturate_witness :
  (0 ≤ 2)%Z ∧ int_range 2
  ∧ ∃ this' cout',
      Destination.calls (replicate 5 (Destination.AcceptRequest (scenario.request "1")))
                        (Destination.Destination "10.0.0.1" 2, EmptyString)
      = Ok (replicate (5 `min` Z.to_nat 2) true ++ replicate (5 - Z.to_nat 2) false)
           (this', cout')
      ∧ Destination.requestsBeingServed this' = Z.of_nat (5 `min` Z.to_nat 2).
Proof.
  split; [lia|]. split; [int_bounds|].
  apply (accepts_saturate "10.0.0.1" 2 (scenario.request "1") 5 EmptyString).
  - lia.
  - int_bounds.
Defined.

(** ** main: the loop *)

Section main_loop.
Context `{Hash string}.
Implicit Types (ls : main.locals) (w : World) (lb : main.lb_target).

Lemma print_spec {T} (s : string) (t : T) w :
  main.print s (t, w) = Ok tt (t, main.with_output w s).
Proof. done. Qed.

Lemma assign_deref lb ls : main.assign lb (main.deref lb ls) ls = ls.
Proof. by destruct lb, ls. Qed.

Lemma via_Ok {A} lb (m : M (Balancer * World) A) ls w a b' w' :
  m (main.deref lb ls, w) = Ok a (b', w') →
  main.via lb m (ls, w) = Ok a (main.assign lb b' ls, w').
Proof. unfold main.via, zoom. by intros ->. Qed.

Lemma via_Throw {A} lb (m : M (Balancer * World) A) ls w e b' w' :
  m (main.deref lb ls, w) = Throw e (b', w') →
  main.via lb m (ls, w) = Throw e (main.assign lb b' ls, w').
Proof. unfold main.via, zoom. by intros ->. Qed.

(** Completing on a destination that serves nothing changes nothing and
    prints nothing. *)
Lemma completeRequest_at_idle {T} (t : T) w p d :
  destination_at w !! p = Some d →
  (Destination.requestsBeingServed d ≤ 0)%Z →
  main.completeRequest_at p (t, w) = Ok tt (t, w).
Proof.
  intros Hp Hload. unfold main.completeRequest_at, zoom, on_destination. simpl.
  rewrite Hp. unfold zoom. rewrite (completeRequest_floor d (cout w) Hload).
  rewrite (insert_id _ _ _ Hp). by destruct w.
Qed.

(** The [try] block on a request that the balancer routes to a live,
    idle destination. *)
Lemma try_block_routed lb request ls w dest b' w' d :
  balanceLoad request (main.deref lb ls, w) = Ok dest (b', w') →
  destination_at w' !! dest = Some d →
  (Destination.requestsBeingServed d ≤ 0)%Z →
  main.try_catch
    (destination ← main.via lb (balanceLoad request);
     ip ← main.ipAddress_of destination;
     main.print ("Request routed to: " +:+ ip +:+ newline);;
     main.completeRequest_at destination)
    (λ e, main.print ("Error: " +:+ main.what e +:+ newline))
    (ls, w)
  = Ok tt (main.assign lb b' ls,
           main.with_output w'
             ("Request routed to: " +:+ Destination.ipAddress d +:+ newline)).
Proof.
  intros Hrun Hd Hload. unfold main.try_catch.
  rewrite (bind_Ok _ _ _ _ _ (via_Ok lb _ ls w dest b' w' Hrun)).
  assert (Hip : main.ipAddress_of dest (main.assign lb b' ls, w')
                = Ok (Destination.ipAddress d) (main.assign lb b' ls, w')).
  { unfold main.ipAddress_of. by rewrite Hd. }
  rewrite (bind_Ok _ _ _ _ _ Hip).
  rewrite (bind_Ok _ _ _ _ _ (print_spec _ _ _)).
  by rewrite (completeRequest_at_idle _ (main.with_output w' _) dest d Hd Hload).
Qed.

(** The [try] block on a request for which the balancer throws. *)
Lemma try_block_error lb request ls w e b' w' :
  balanceLoad request (main.deref lb ls, w) = Throw e (b', w') →
  main.try_catch
    (destination ← main.via lb (balanceLoad request);
     ip ← main.ipAddress_of destination;
     main.print ("Request routed to: " +:+ ip +:+ newline);;
     main.completeRequest_at destination)
    (λ e, main.print ("Error: " +:+ main.what e +:+ newline))
    (ls, w)
  = Ok tt (main.assign lb b' ls,
           main.with_output w' ("Error: " +:+ main.what e +:+ newline)).
Proof.
  intros Hrun. unfold main.try_catch.
  by rewrite (bind_Throw _ _ _ _ _ (via_Throw lb _ ls w e b' w' Hrun)).
Qed.

(** A [try] block whose handler returns, followed by a return, never
    throws. *)
Lemma try_catch_then {S A B} (m : M S A) (h : exception → M S A) (b : B) (s : S) :
  (∀ e s1, ∃ a s2, h e s1 = Ok a s2) →
  (∃ s', (main.try_catch m h;; ret b) s = Ok b s')
  ∨ (main.try_catch m h;; ret b) s = Undefined.
Proof.
  intros Hh. unfold bind, main.try_catch, ret.
  destruct (m s) as [a s1|e s1|].
  - left. by eexists.
  - destruct (Hh e s1) as (a & s2 & ->). left. by eexists.
  - by right.
Qed.

Lemma switch_not_4 choice lb : main.switch choice = Some lb → (choice =? 4)%Z = false.
Proof. destruct (Z.eqb_spec choice 4) as [->|]; done. Qed.

(** An iteration whose choice selects a balancer, in terms of its [try]
    block. *)
Lemma iteration_selected choice id lb ls w :
  main.switch choice = Some lb →
  main.iteration choice id (ls, w)
  = (main.try_catch
       (destination ← main.via lb (balanceLoad (Request.mk ("REQ" +:+ id) "http" ∅));
        ip ← main.ipAddress_of destination;
        main.print ("Request routed to: " +:+ ip +:+ newline);;
        main.completeRequest_at destination)
       (λ e, main.print ("Error: " +:+ main.what e +:+ newline));;
     ret true)
      (ls, main.with_output (main.with_output w main.menu) "Enter request ID: ").
Proof.
  intros Hlb. unfold main.iteration.
  rewrite (bind_Ok _ _ _ _ _ (print_spec _ _ _)).
  rewrite (switch_not_4 choice lb Hlb), Hlb.
  by rewrite (bind_Ok _ _ _ _ _ (print_spec _ _ _)).
Qed.

Lemma iteration_invalid choice id ls w :
  choice ≠ 4%Z → main.switch choice = None →
  main.iteration choice id (ls, w)
  = Ok true (ls, main.with_output (main.with_output w main.menu)
                   ("Invalid choice. Try again." +:+ newline)).
Proof.
  intros Hne Hsw. unfold main.iteration.
  rewrite (bind_Ok _ _ _ _ _ (print_spec _ _ _)).
  destruct (Z.eqb_spec choice 4); [done|]. rewrite Hsw.
  by rewrite (bind_Ok _ _ _ _ _ (print_spec _ _ _)).
Qed.

(** X15.  No exception leaves an iteration of the loop: whatever the
    choice, the id and the state, the iteration does not end in a throw.
    It ends the loop exactly for choice 4, having printed only the menu;
    any choice other than 1, 2, 3 and 4 prints the menu and the
    invalid-choice line, changes nothing else and goes on. *)
Theorem iteration_control choice id ls w :
  (∀ e s', main.iteration choice id (ls, w) ≠ Throw e s')
  ∧ (choice = 4%Z →
     main.iteration choice id (ls, w) = Ok false (ls, main.with_output w main.menu))
  ∧ (∀ s', main.iteration choice id (ls, w) = Ok false s' → choice = 4%Z)
  ∧ (choice ≠ 4%Z → main.switch choice = None →
     main.iteration choice id (ls, w)
     = Ok true (ls, main.with_output (main.with_output w main.menu)
                      ("Invalid choice. Try again." +:+ newline))).
Proof.
  pose proof (iteration_invalid choice id ls w) as Hinvalid.
  assert (Hselected : ∀ lb, main.switch choice = Some lb →
            (∃ s', main.iteration choice id (ls, w) = Ok true s')
            ∨ main.iteration choice id (ls, w) = Undefined).
  { intros lb Hlb. rewrite (iteration_selected choice id lb ls w Hlb).
    apply try_catch_then. intros e [t1 w1]. by eexists _, _. }
  split; [|split; [|split]].
  - intros e s'. destruct (decide (choice = 4%Z)) as [->|Hne]; [done|].
    destruct (main.switch choice) as [lb|] eqn:Hsw.
    + by destruct (Hselected lb eq_refl) as [[s1 ->]| ->].
    + by rewrite Hinvalid.
  - by intros ->.
  - intros s'. destruct (decide (choice = 4%Z)) as [->|Hne]; [done|].
    destruct (main.switch choice) as [lb|] eqn:Hsw.
    + by destruct (Hselected lb eq_refl) as [[s1 ->]| ->].
    + by rewrite Hinvalid.
  - exact Hinvalid.
Qed.
End main_loop.

(** ** main: what the loop keeps *)

Section main_invariant.
Context `{Hash string}.
Variable a : main.layout.
Hypothesis Hdistinct : main.distinct a.
Implicit Types (ls : main.locals) (w : World) (lb : main.lb_target).

#[local] Abbreviation dests := [main.dest1 a; main.dest2 a; main.dest3 a].
#[local] Abbreviation enumeration := (Service.destinations (main.service_of a)).

Lemma invariant_with_output ls w s :
  main.invariant a ls w → main.invariant a ls (main.with_output w s).
Proof. done. Qed.

Lemma invariant_setup : main.invariant a (main.locals_of a) (main.world_of a).
Proof.
  split; [done|]. split; [done|]. split; [|done].
  eexists. split; [reflexivity|]. split.
  - simpl. rewrite registerService_insert. apply lookup_insert_eq.
  - by intros k q Hq.
Qed.

(** The set enumerates the three destinations, in ascending order. *)
Lemma enumeration_members p : p ∈ enumeration ↔ p ∈ dests.
Proof.
  unfold main.service_of, Service.addDestination. cbn [Service.destinations].
  rewrite !set_insert_elem_of, !elem_of_cons, elem_of_nil. split.
  - intros [->|[->|[->|[]]]]; auto.
  - intros [->|[->|[->|[]]]]; auto.
Qed.

Lemma enumeration_ok : set_ok enumeration.
Proof.
  unfold main.service_of, Service.addDestination. cbn [Service.destinations].
  do 3 apply set_insert_sorted. constructor.
Qed.

Lemma enumeration_nonempty : enumeration ≠ [].
Proof.
  intros Hnil. assert (Hin : main.dest1 a ∈ enumeration).
  { apply enumeration_members. by left. }
  rewrite Hnil in Hin. by apply elem_of_nil in Hin.
Qed.

Lemma lowest_member : main.lowest a ∈ dests.
Proof.
  unfold main.lowest. rewrite !elem_of_cons.
  destruct (N.min_spec (main.dest2 a) (main.dest3 a)) as [[_ ->]|[_ ->]];
    [destruct (N.min_spec (main.dest1 a) (main.dest2 a)) as [[_ ->]|[_ ->]]
    |destruct (N.min_spec (main.dest1 a) (main.dest3 a)) as [[_ ->]|[_ ->]]]; auto.
Qed.

Lemma lowest_le p : p ∈ dests → (main.lowest a ≤ p)%N.
Proof.
  unfold main.lowest. rewrite !elem_of_cons, elem_of_nil.
  intros [->|[->|[->|[]]]]; lia.
Qed.

(** The enumeration starts with the destination at the lowest address. *)
Lemma enumeration_head : enumeration !! 0%nat = Some (main.lowest a).
Proof.
  pose proof enumeration_ok as Hok. pose proof enumeration_nonempty as Hne.
  pose proof (proj2 (enumeration_members (main.lowest a)) lowest_member) as Hlow.
  assert (Hle : ∀ p, p ∈ enumeration → (main.lowest a ≤ p)%N).
  { intros p Hp. by apply lowest_le, enumeration_members. }
  destruct enumeration as [|x rest]; [done|]. simpl. f_equal.
  apply elem_of_cons in Hlow as [->|Hlow]; [done|].
  apply StronglySorted_inv in Hok as [_ Hall].
  pose proof (proj1 (Forall_forall _ _) Hall _ Hlow).
  assert (main.lowest a ≤ x)%N by (apply Hle; by left). lia.
Qed.

(** Under the invariant the three destinations are live and idle, with
    the records [main] gave them. *)
Lemma main_destination w p :
  destination_at w = destination_at (main.world_of a) →
  p ∈ dests →
  ∃ d, destination_at w !! p = Some d
       ∧ Destination.requestsBeingServed d = 0%Z
       ∧ ((p = main.dest1 a ∧ Destination.ipAddress d = "192.168.0.1")
          ∨ (p = main.dest2 a ∧ Destination.ipAddress d = "192.168.0.2")
          ∨ (p = main.dest3 a ∧ Destination.ipAddress d = "192.168.0.3")).
Proof.
  destruct Hdistinct as (H12 & H13 & H23).
  intros -> Hp. unfold main.world_of. simpl.
  rewrite !elem_of_cons, elem_of_nil in Hp. destruct Hp as [->|[->|[->|[]]]].
  - rewrite lookup_insert_eq. eexists. split; [done|]. split; [done|]. by left.
  - rewrite lookup_insert_ne, lookup_insert_eq by done.
    eexists. split; [done|]. split; [done|]. right. by left.
  - rewrite !lookup_insert_ne, lookup_insert_eq by done.
    eexists. split; [done|]. split; [done|]. right. by right.
Qed.

Lemma main_live w :
  destination_at w = destination_at (main.world_of a) → live w enumeration.
Proof.
  intros Hd p Hp%enumeration_members.
  destruct (main_destination w p Hd Hp) as (d & -> & _). eauto.
Qed.

Lemma main_service_at w :
  service_at w = service_at (main.world_of a) →
  service_at w !! main.service a = Some (main.service_of a).
Proof. intros ->. apply lookup_insert_eq. Qed.

(** All loads being equal, least connection returns the head of the
    enumeration: the destination at the lowest address. *)
Lemma main_least_connection request w :
  Request.requestType request = "http" →
  destination_at w = destination_at (main.world_of a) →
  service_at w = service_at (main.world_of a) →
  balanceLoad request (main.leastConnectionLB (main.locals_of a), w)
  = Ok (main.lowest a) (main.leastConnectionLB (main.locals_of a), w).
Proof.
  intros Hk Hd Hs. cbn [main.locals_of main.leastConnectionLB registerService].
  rewrite balanceLoad_LeastConnection.
  destruct (least_connection_selects request
              (LoadBalancer.registerService "http" (main.service a) (LoadBalancer.mk ∅))
              w (main.service a) (main.service_of a))
    as (i & d & -> & Hi & n & Hn & Hall).
  - rewrite Hk, registerService_insert. apply lookup_insert_eq.
  - by apply main_service_at.
  - apply enumeration_nonempty.
  - by apply main_live.
  - destruct (Hall 0%nat (main.lowest a) enumeration_head) as (n' & Hn' & _ & Hlt).
    assert (Hd1 : d ∈ dests) by (apply enumeration_members, list_elem_of_lookup; eauto).
    destruct (main_destination w d Hd Hd1) as (dd & Hdd & Hload & _).
    destruct (main_destination w (main.lowest a) Hd lowest_member)
      as (d0 & Hd0 & Hload0 & _).
    unfold load_at in Hn, Hn'. rewrite Hdd in Hn. rewrite Hd0 in Hn'.
    injection Hn as <-. injection Hn' as <-.
    destruct i as [|i]; [|lia]. rewrite enumeration_head in Hi. by injection Hi as <-.
Qed.

Lemma main_routed request w :
  Request.requestType request = "http" →
  service_at w = service_at (main.world_of a) →
  ∃ d, balanceLoad request (main.routedLB (main.locals_of a), w)
       = Ok d (main.routedLB (main.locals_of a), w)
       ∧ d ∈ dests.
Proof.
  intros Hk Hs. cbn [main.locals_of main.routedLB registerService].
  rewrite balanceLoad_Routed.
  destruct (routed_selects request
              (LoadBalancer.registerService "http" (main.service a) (LoadBalancer.mk ∅))
              w (main.service a) (main.service_of a))
    as (d & -> & Hd).
  - rewrite Hk, registerService_insert. apply lookup_insert_eq.
  - by apply main_service_at.
  - apply enumeration_nonempty.
  - exists d. split; [done|]. apply enumeration_members, list_elem_of_lookup. eauto.
Qed.

Lemma main_round_robin request rr w :
  Request.requestType request = "http" →
  service_at w = service_at (main.world_of a) →
  LoadBalancer.serviceMap (RoundRobinLoadBalancer.base rr) !! "http"
    = Some (main.service a) →
  (∀ k q, RoundRobinLoadBalancer.destinationQueues rr !! k = Some q →
          q ≠ [] ∧ ∀ p, p ∈ q → p ∈ dests) →
  ∃ d rr',
    balanceLoad request (RoundRobin rr, w) = Ok d (RoundRobin rr', w)
    ∧ d ∈ dests
    ∧ LoadBalancer.serviceMap (RoundRobinLoadBalancer.base rr') !! "http"
      = Some (main.service a)
    ∧ (∀ k q, RoundRobinLoadBalancer.destinationQueues rr' !! k = Some q →
              q ≠ [] ∧ ∀ p, p ∈ q → p ∈ dests).
Proof.
  intros Hk Hs Hbase Hqueues.
  assert (Hc : candidates (LoadBalancer.serviceMap (RoundRobinLoadBalancer.base rr)) w
                          (Request.requestType request) = Some enumeration).
  { rewrite Hk. apply candidates_Some.
    exists (main.service a), (main.service_of a).
    split; [done|]. split; [by apply main_service_at|done]. }
  assert (Hstep : ∀ x q',
            (∀ p, p ∈ x :: q' → p ∈ dests) →
            RoundRobinLoadBalancer.destinationQueues rr !! Request.requestType request
              = Some (x :: q')
            ∨ (RoundRobinLoadBalancer.destinationQueues rr !! Request.requestType request
                 = None ∧ enumeration = x :: q') →
            ∃ d rr',
              balanceLoad request (RoundRobin rr, w) = Ok d (RoundRobin rr', w)
              ∧ d ∈ dests
              ∧ LoadBalancer.serviceMap (RoundRobinLoadBalancer.base rr') !! "http"
                = Some (main.service a)
              ∧ (∀ k q, RoundRobinLoadBalancer.destinationQueues rr' !! k = Some q →
                        q ≠ [] ∧ ∀ p, p ∈ q → p ∈ dests)).
  { intros x q' Hin Hq.
    exists x, (with_queue (Request.requestType request) (q' ++ [x]) rr).
    split.
    { apply (round_robin_serves request rr w enumeration x q' Hc enumeration_nonempty).
      exact Hq. }
    split; [apply Hin; by left|]. split; [done|].
    intros k q. unfold with_queue. simpl.
    destruct (decide (Request.requestType request = k)) as [<-|Hne].
    - rewrite lookup_insert_eq. intros [= <-]. split; [by destruct q'|].
      intros p Hp. apply Hin. apply elem_of_app in Hp as [Hp|Hp].
      + by right.
      + apply elem_of_cons in Hp as [->|Hp]; [by left|]. by apply elem_of_nil in Hp.
    - rewrite lookup_insert_ne by done. apply Hqueues. }
  destruct (RoundRobinLoadBalancer.destinationQueues rr !! Request.requestType request)
    as [[|x q']|] eqn:Hq.
  - by destruct (Hqueues _ _ Hq) as [Hne _].
  - apply (Hstep x q'); [|by left]. by destruct (Hqueues _ _ Hq) as [_ Hin].
  - pose proof enumeration_nonempty as Hne.
    destruct enumeration as [|x q'] eqn:Hl; [done|].
    apply (Hstep x q'); [|by right].
    intros p Hp. apply enumeration_members. by rewrite Hl.
Qed.

(** Under the invariant every option routes to one of the three
    destinations and keeps the invariant. *)
Lemma main_routes lb request ls w :
  Request.requestType request = "http" →
  main.invariant a ls w →
  ∃ d b',
    balanceLoad request (main.deref lb ls, w) = Ok d (b', w)
    ∧ d ∈ dests
    ∧ main.invariant a (main.assign lb b' ls) w.
Proof.
  intros Hk (Hlc & Hrt & (rr & Hrr & Hbase & Hqueues) & Hd & Hs).
  destruct lb; cbn [main.deref main.assign].
  - exists (main.lowest a), (main.leastConnectionLB (main.locals_of a)). rewrite Hlc.
    split; [by apply main_least_connection|]. split; [apply lowest_member|].
    split; [done|]. split; [done|]. split; [|done]. by exists rr.
  - destruct (main_routed request w Hk Hs) as (d & Hrun & Hin).
    exists d, (main.routedLB (main.locals_of a)). rewrite Hrt.
    split; [done|]. split; [done|].
    split; [done|]. split; [done|]. split; [|done]. by exists rr.
  - destruct (main_round_robin request rr w Hk Hs Hbase Hqueues)
      as (d & rr' & Hrun & Hin & Hbase' & Hqueues').
    exists d, (RoundRobin rr'). rewrite Hrr. split; [done|]. split; [done|].
    split; [done|]. split; [done|]. split; [|done]. by exists rr'.
Qed.

(** An iteration whose choice selects a balancer prints the address of
    one of the three destinations and keeps the invariant. *)
Lemma iteration_routes choice id lb ls w :
  main.switch choice = Some lb →
  main.invariant a ls w →
  ∃ ls' ip,
    ip ∈ ["192.168.0.1"; "192.168.0.2"; "192.168.0.3"]
    ∧ main.iteration choice id (ls, w)
      = Ok true
           (ls',
            main.with_output
              (main.with_output (main.with_output w main.menu) "Enter request ID: ")
              ("Request routed to: " +:+ ip +:+ newline))
    ∧ main.invariant a ls' w.
Proof.
  intros Hsw Hinv. rewrite (iteration_selected choice id lb ls w Hsw).
  set (w1 := main.with_output (main.with_output w main.menu) "Enter request ID: ").
  set (request := Request.mk ("REQ" +:+ id) "http" ∅).
  destruct (main_routes lb request ls w1 eq_refl) as (d & b' & Hrun & Hin & Hinv').
  { by do 2 apply invariant_with_output. }
  pose proof Hinv' as (_ & _ & _ & Hd & _).
  destruct (main_destination w1 d Hd Hin) as (dd & Hdd & Hload & Hip).
  assert (Hle : (Destination.requestsBeingServed dd ≤ 0)%Z) by lia.
  rewrite (bind_Ok _ _ _ _ _ (try_block_routed lb request ls w1 d b' w1 dd Hrun Hdd Hle)).
  exists (main.assign lb b' ls), (Destination.ipAddress dd). split; [|split; [done|done]].
  rewrite !elem_of_cons. destruct Hip as [[_ ->]|[[_ ->]|[_ ->]]]; auto.
Qed.

Lemma iteration_keeps_invariant choice id ls w :
  main.invariant a ls w →
  ∃ continue ls' w',
    main.iteration choice id (ls, w) = Ok continue (ls', w')
    ∧ main.invariant a ls' w'.
Proof.
  intros Hinv.
  destruct (decide (choice = 4%Z)) as [->|Hne].
  { eexists _, _, _. split; [reflexivity|]. by apply invariant_with_output. }
  destruct (main.switch choice) as [lb|] eqn:Hsw.
  - destruct (iteration_routes choice id lb ls w Hsw Hinv) as (ls' & ip & _ & Hrun & Hinv').
    eexists _, _, _. split; [exact Hrun|]. by do 3 apply invariant_with_output.
  - eexists _, _, _. split; [by apply iteration_invalid|].
    by do 2 apply invariant_with_output.
Qed.

Lemma reachable_invariant s :
  main.reachable a s → main.invariant a s.1 s.2.
Proof.
  induction 1 as [|choice id [ls w] [ls' w'] Hreach IH Hrun].
  - apply invariant_setup.
  - destruct (iteration_keeps_invariant choice id ls w IH)
      as (continue & ls1 & w1 & Hrun1 & Hinv1).
    rewrite Hrun1 in Hrun. by injection Hrun as _ <- <-.
Qed.
End main_invariant.

Section main_results.
Context `{Hash string}.
Implicit Types (a : main.layout) (ls : main.locals) (w : World).

(** X16.  In [main] the handler of the [try] block never runs.  Wherever
    the compiler has placed the three destinations, in every state the
    loop can reach an iteration with choice 1, 2 or 3 prints the menu,
    the id prompt and "Request routed to: " followed by the address of
    one of the three destinations, never an "Error: " line, and the loop
    goes on. *)
Theorem main_never_reports_error a choice id lb ls w :
  main.distinct a →
  main.reachable a (ls, w) →
  main.switch choice = Some lb →
  ∃ ls' ip,
    ip ∈ ["192.168.0.1"; "192.168.0.2"; "192.168.0.3"]
    ∧ main.iteration choice id (ls, w)
      = Ok true
           (ls',
            main.with_output
              (main.with_output (main.with_output w main.menu) "Enter request ID: ")
              ("Request routed to: " +:+ ip +:+ newline)).
Proof.
  intros Hdistinct Hreach Hsw.
  pose proof (reachable_invariant a Hdistinct (ls, w) Hreach) as Hinv.
  destruct (iteration_routes a Hdistinct choice id lb ls w Hsw Hinv)
    as (ls' & ip & Hip & Hrun & _).
  by exists ls', ip.
Qed.

(** X17.  The loop of [main] is safe, wherever the compiler has placed
    the service and the three destinations.  In every state the loop can
    reach, whatever choice and id are read next, the iteration returns:
    it reaches no undefined behaviour and lets no exception out.  And in
    every such state no destination has changed (every load is still 0,
    because the loop completes requests it never had admitted) and the
    service still holds the three destinations. *)
Theorem main_loop_safe a ls w :
  main.distinct a →
  main.reachable a (ls, w) →
  (∀ choice id, ∃ continue s', main.iteration choice id (ls, w) = Ok continue s')
  ∧ destination_at w = destination_at (main.world_of a)
  ∧ service_at w = service_at (main.world_of a)
  ∧ (∀ p d, destination_at w !! p = Some d → Destination.requestsBeingServed d = 0%Z).
Proof.
  intros Hdistinct Hreach.
  pose proof (reachable_invariant a Hdistinct (ls, w) Hreach) as Hinv.
  split; [|split; [|split]].
  - intros choice id.
    destruct (iteration_keeps_invariant a Hdistinct choice id ls w Hinv)
      as (continue & ls' & w' & Hrun & _).
    by exists continue, (ls', w').
  - by destruct Hinv as (_ & _ & _ & Hd & _).
  - by destruct Hinv as (_ & _ & _ & _ & Hs).
  - destruct Hinv as (_ & _ & _ & Hd & _). simpl in Hd. rewrite Hd.
    intros p d. unfold main.world_of. simpl.
    intros [[_ <-]|[_ [[_ <-]|[_ [[_ <-]|[_ Hp]]%lookup_insert_Some]]%lookup_insert_Some]]
             %lookup_insert_Some; done.
Qed.

(** X18.  In [main] the least-connection option always routes to the
    same destination, the one the compiler has placed at the lowest
    address: in every state the loop can reach, an iteration with choice
    1 prints the menu, the id prompt and "Request routed to: " followed
    by the address string of that destination, whatever the id, and
    changes nothing else.  (No request is ever admitted, so all loads tie
    at 0 and [min_element] takes the first of the set's enumeration.) *)
Theorem main_least_connection_always_lowest a id ls w :
  main.distinct a →
  main.reachable a (ls, w) →
  ∃ d,
    destination_at (main.world_of a) !! main.lowest a = Some d
    ∧ main.iteration 1 id (ls, w)
      = Ok true
           (ls,
            main.with_output
              (main.with_output (main.with_output w main.menu) "Enter request ID: ")
              ("Request routed to: " +:+ Destination.ipAddress d +:+ newline))
    ∧ ((main.lowest a = main.dest1 a ∧ Destination.ipAddress d = "192.168.0.1")
       ∨ (main.lowest a = main.dest2 a ∧ Destination.ipAddress d = "192.168.0.2")
       ∨ (main.lowest a = main.dest3 a ∧ Destination.ipAddress d = "192.168.0.3")).
Proof.
  intros Hdistinct Hreach.
  pose proof (reachable_invariant a Hdistinct (ls, w) Hreach) as Hinv.
  set (w1 := main.with_output (main.with_output w main.menu) "Enter request ID: ").
  set (request := Request.mk ("REQ" +:+ id) "http" ∅).
  assert (Hinv1 : main.invariant a ls w1) by by do 2 apply invariant_with_output.
  destruct Hinv1 as (Hlc & _ & _ & Hd & Hs).
  destruct (main_destination a Hdistinct w1 (main.lowest a) Hd (lowest_member a))
    as (d & Hdd & Hload & Hip).
  exists d. split; [by rewrite <- Hd|]. split; [|done].
  rewrite (iteration_selected 1 id main.to_leastConnectionLB ls w eq_refl).
  assert (Hrun : balanceLoad request (main.deref main.to_leastConnectionLB ls, w1)
                 = Ok (main.lowest a) (main.deref main.to_leastConnectionLB ls, w1)).
  { cbn [main.deref]. rewrite Hlc. by apply main_least_connection. }
  assert (Hle : (Destination.requestsBeingServed d ≤ 0)%Z) by lia.
  rewrite (bind_Ok _ _ _ _ _
             (try_block_routed main.to_leastConnectionLB request ls w1 (main.lowest a)
                _ w1 d Hrun Hdd Hle)).
  by rewrite assign_deref.
Qed.
End main_results.

(** A placement with the destinations at descending addresses. *)
Lemma descending_distinct : main.distinct (main.mk_layout 4096 8256 8224 8192).
Proof. repeat split; discriminate. Qed.

Lemma main_never_reports_error_witness :
  let a := main.mk_layout 4096 8256 8224 8192 in
  main.distinct a
  ∧ @main.reachable scenario.length_hash a (main.locals_of a, main.world_of a)
  ∧ main.switch 3 = Some main.to_roundRobinLB
  ∧ ∃ ls' ip,
      ip ∈ ["192.168.0.1"; "192.168.0.2"; "192.168.0.3"]
      ∧ @main.iteration scenario.length_hash 3 "42" (main.locals_of a, main.world_of a)
        = Ok true
             (ls',
              main.with_output
                (main.with_output (main.with_output (main.world_of a) main.menu)
                   "Enter request ID: ")
                ("Request routed to: " +:+ ip +:+ newline)).
Proof.
  cbv zeta. split; [exact descending_distinct|].
  split; [apply main.reachable_setup|]. split; [reflexivity|].
  apply (@main_never_reports_error scenario.length_hash
           (main.mk_layout 4096 8256 8224 8192) 3 "42" main.to_roundRobinLB).
  - exact descending_distinct.
  - apply main.reachable_setup.
  - reflexivity.
Defined.

Lemma main_loop_safe_witness :
  let a := main.mk_layout 4096 8256 8224 8192 in
  main.distinct a
  ∧ @main.reachable scenario.length_hash a (main.locals_of a, main.world_of a)
  ∧ ((∀ choice id,
        ∃ continue s',
          @main.iteration scenario.length_hash choice id
            (main.locals_of a, main.world_of a) = Ok continue s')
     ∧ destination_at (main.world_of a) = destination_at (main.world_of a)
     ∧ service_at (main.world_of a) = service_at (main.world_of a)
     ∧ (∀ p d, destination_at (main.world_of a) !! p = Some d →
               Destination.requestsBeingServed d = 0%Z)).
Proof.
  cbv zeta. split; [exact descending_distinct|].
  split; [apply main.reachable_setup|].
  apply (@main_loop_safe scenario.length_hash (main.mk_layout 4096 8256 8224 8192)).
  - exact descending_distinct.
  - apply main.reachable_setup.
Defined.

Lemma main_least_connection_always_lowest_witness :
  let a := main.mk_layout 4096 8256 8224 8192 in
  main.distinct a
  ∧ @main.reachable scenario.length_hash a (main.locals_of a, main.world_of a)
  ∧ ∃ d,
      destination_at (main.world_of a) !! main.lowest a = Some d
      ∧ @main.iteration scenario.length_hash 1 "42" (main.locals_of a, main.world_of a)
        = Ok true
             (main.locals_of a,
              main.with_output
                (main.with_output (main.with_output (main.world_of a) main.menu)
                   "Enter request ID: ")
                ("Request routed to: " +:+ Destination.ipAddress d +:+ newline))
      ∧ ((main.lowest a = main.dest1 a ∧ Destination.ipAddress d = "192.168.0.1")
         ∨ (main.lowest a = main.dest2 a ∧ Destination.ipAddress d = "192.168.0.2")
         ∨ (main.lowest a = main.dest3 a ∧ Destination.ipAddress d = "192.168.0.3")).
Proof.
  cbv zeta. split; [exact descending_distinct|].
  split; [apply main.reachable_setup|].
  apply (@main_least_connection_always_lowest scenario.length_hash
           (main.mk_layout 4096 8256 8224 8192) "42").
  - exact descending_distinct.
  - apply main.reachable_setup.
Defined.

(** With the destinations at descending addresses the least-connection
    option prints the third address; at ascending addresses, the first. *)
Example least_connection_by_placement :
  (∃ s', @main.iteration scenario.length_hash 1 "42"
           (main.locals_of (main.mk_layout 4096 8256 8224 8192),
            main.world_of (main.mk_layout 4096 8256 8224 8192))
         = Ok true s'
         ∧ cout s'.2
           = main.menu +:+ "Enter request ID: "
             +:+ "Request routed to: 192.168.0.3" +:+ newline)
  ∧ (∃ s', @main.iteration scenario.length_hash 1 "42"
             (main.locals_of (main.mk_layout 4096 8192 8224 8256),
              main.world_of (main.mk_layout 4096 8192 8224 8256))
           = Ok true s'
           ∧ cout s'.2
             = main.menu +:+ "Enter request ID: "
               +:+ "Request routed to: 192.168.0.1" +:+ newline).
Proof. split; eexists; split; vm_compute; reflexivity. Qed.
